(** * Verification of the bulk embedder ([app.py])

    A shallow embedding of the batch upload engine of [app.py]: the
    directory enumeration ([os.walk] with in-place pruning), the upload
    unit ([upload_file] and the body of the CLI loop), the sequential
    CLI run ([embed_files_cli]), the GUI handlers [start_embedding] and
    [stop_embedding], the threaded run ([embed_files_threaded], as an
    executable step function over the thread pool) and
    [Config.is_valid].

    Python [str] values are sequences of Unicode code points and are
    modelled as [list N]; file contents are [list byte]; paths follow
    [posixpath].  Part I holds the definitions, Part II the proofs. *)

From Stdlib Require Import List NArith ZArith Lia Bool String Ascii.
From Stdlib Require Import Strings.Byte.
From stdpp Require Import base list relations.
Import ListNotations.

Local Open Scope N_scope.

(** * Part I: the program *)

(** ** Python strings *)

Module PyStr.

(** A Python [str]: a sequence of code points. *)
Abbreviation str := (list N).

(** A literal of the source, given as a Rocq string. *)
Definition lit (s : string) : str :=
  List.map N_of_ascii (list_ascii_of_string s).

(** [str.isspace] on one character: the code points for which
    CPython's [_PyUnicode_IsWhitespace] answers true. *)
Definition isspace (c : N) : bool :=
  ((0x09 <=? c) && (c <=? 0x0D)) ||
  ((0x1C <=? c) && (c <=? 0x20)) ||
  (c =? 0x85) || (c =? 0xA0) || (c =? 0x1680) ||
  ((0x2000 <=? c) && (c <=? 0x200A)) ||
  (c =? 0x2028) || (c =? 0x2029) || (c =? 0x202F) ||
  (c =? 0x205F) || (c =? 0x3000).

(** [s.lstrip()], [s.rstrip()] and [s.strip()] with no argument. *)
Fixpoint lstrip (s : str) : str :=
  match s with
  | [] => []
  | c :: r => if isspace c then lstrip r else s
  end.

Definition rstrip (s : str) : str := rev (lstrip (rev s)).

Definition strip (s : str) : str := rstrip (lstrip s).

(** [bool(s)]: a string is truthy when it is not empty. *)
Definition truthy (s : str) : bool :=
  match s with [] => false | _ :: _ => true end.

(** [s.startswith(c)] and [s.endswith(c)] for a one-character [c]. *)
Definition startswith (c : N) (s : str) : bool :=
  match s with [] => false | x :: _ => x =? c end.

Definition endswith (c : N) (s : str) : bool := startswith c (rev s).

(** [s.rfind(c)] for a one-character [c]: the highest index holding
    [c], or [-1]. *)
Fixpoint rfind (c : N) (s : str) : Z :=
  match s with
  | [] => (-1)%Z
  | x :: r =>
      let k := rfind c r in
      if (0 <=? k)%Z then (k + 1)%Z
      else if x =? c then 0%Z else (-1)%Z
  end.

(** [x in l] for a list of strings. *)
Definition mem (x : str) (l : list str) : bool :=
  existsb (fun y => bool_decide (x = y)) l.

End PyStr.
Import PyStr.

(** ** [posixpath] *)

Module PosixPath.

Definition sep : N := 0x2F.

(** [os.path.join(a, b)]. *)
Definition join (a b : str) : str :=
  if startswith sep b then b
  else if negb (truthy a) || endswith sep a then a ++ b
  else a ++ sep :: b.

(** [os.path.basename(p)]: [p[p.rfind('/') + 1:]]. *)
Definition basename (p : str) : str :=
  drop (Z.to_nat (rfind sep p + 1)) p.

End PosixPath.
Import PosixPath.

(** ** [class Config] *)

Record Config := mkConfig { api_url : str; api_token : str }.

(** [Config.__init__]: [url or ""], [token or ""]. *)
Definition or_empty (o : option str) : str :=
  match o with
  | Some s => if truthy s then s else []
  | None => []
  end.

Definition Config_init (url token : option str) : Config :=
  {| api_url := or_empty url; api_token := or_empty token |}.

(** [Config.is_valid]. *)
Definition is_valid (c : Config) : bool :=
  truthy (strip (api_url c)) && truthy (strip (api_token c)).

(** ** The directory tree and [os.walk] *)

(** A directory as [os.scandir] lists it: the names of its files, and
    its subdirectories by name. *)
#[local] Unset Elimination Schemes.
Inductive Dir :=
| MkDir (files : list str) (subdirs : list (str * Dir)).
#[local] Set Elimination Schemes.

(** [dirs[:] = [d for d in dirs if d not in ignored_dirs]]. *)
Definition prune (ignored : list str) (dirs : list str) : list str :=
  List.filter (fun d => negb (mem d ignored)) dirs.

(** The items [(root, dirs, files)] that [os.walk(top)] hands to a loop
    whose body prunes [dirs] in place as above: top-down, each
    directory before its subdirectories, and only the subdirectories
    left in [dirs] are entered. *)
Fixpoint walk (ignored : list str) (top : str) (d : Dir)
  : list (str * list str * list str) :=
  match d with
  | MkDir files subs =>
      (top, prune ignored (List.map fst subs), files)
      :: flat_map
           (fun s => if mem (fst s) ignored then []
                     else walk ignored (join top (fst s)) (snd s))
           subs
  end.

(** The inner loop: [all_files.append(os.path.join(root, filename))]
    for each [filename] of [files]. *)
Definition item_paths (item : str * list str * list str) : list str :=
  let '(root, _, files) := item in List.map (join root) files.

(** The enumeration loop of [embed_files_cli] (lines 96-101). *)
Definition enumerate (ignored : list str) (base_dir : str) (d : Dir)
  : list str :=
  flat_map item_paths (walk ignored base_dir d).

(** *** What the enumeration is compared with *)

(** A file of a subdirectory named [n], seen from its parent. *)
Definition below (n : str) (p : list str * str) : list str * str :=
  (n :: fst p, snd p).

(** Every file under a directory: the names of the directories from
    the root (excluded) down to the file's own directory, and the
    file's name. *)
Fixpoint tree_files (d : Dir) : list (list str * str) :=
  match d with
  | MkDir files subs =>
      List.map (pair []) files
      ++ flat_map
           (fun s => List.map (below (fst s)) (tree_files (snd s)))
           subs
  end.

(** Some ancestor directory's name is in the ignored set. *)
Definition under_ignored (ignored : list str) (p : list str * str) : bool :=
  existsb (fun a => mem a ignored) (fst p).

(** The path string of a file: [base_dir] joined with each directory
    name in turn, then with the file name. *)
Definition path_of (base_dir : str) (p : list str * str) : str :=
  join (fold_left join (fst p) base_dir) (snd p).


(** A name a file system can hold: not empty, no separator in it. *)
Definition valid_name (n : str) : bool :=
  truthy n && negb (existsb (N.eqb sep) n).

Fixpoint nodupb (l : list str) : bool :=
  match l with
  | [] => true
  | x :: r => negb (mem x r) && nodupb r
  end.

(** A directory tree as a file system holds it: in every directory the
    file names are distinct valid names, and so are the subdirectory
    names. *)
Fixpoint wf_dir (d : Dir) : bool :=
  match d with
  | MkDir files subs =>
      forallb valid_name files && nodupb files
      && forallb valid_name (List.map fst subs)
      && nodupb (List.map fst subs)
      && forallb (fun s => wf_dir (snd s)) subs
  end.

(** ** Reading a file as text *)

(** [errors=] of [open]: what the codec does with bytes that are not
    UTF-8. *)
Inductive errors_mode := Strict | Replace.

(** U+FFFD, the replacement character. *)
Definition REPLACEMENT : N := 0xFFFD.

Definition is_cont (b : N) : bool := (0x80 <=? b) && (b <=? 0xBF).

(** The bounds of the second byte after lead byte [b0] (the table of
    well-formed UTF-8 byte sequences). *)
Definition second_ok (b0 b1 : N) : bool :=
  if b0 =? 0xE0 then (0xA0 <=? b1) && (b1 <=? 0xBF)
  else if b0 =? 0xED then (0x80 <=? b1) && (b1 <=? 0x9F)
  else if b0 =? 0xF0 then (0x90 <=? b1) && (b1 <=? 0xBF)
  else if b0 =? 0xF4 then (0x80 <=? b1) && (b1 <=? 0x8F)
  else is_cont b1.

(** One decoded character in front of the rest. *)
Definition emit (c : N) (rest : option str) : option str :=
  match rest with Some s => Some (c :: s) | None => None end.

(** An ill-formed sequence: [UnicodeDecodeError] under [Strict], one
    U+FFFD under [Replace], after which decoding goes on. *)
Definition on_error (m : errors_mode) (rest : option str) : option str :=
  match m with
  | Strict => None
  | Replace => emit REPLACEMENT rest
  end.

(** [bytes.decode("utf-8", errors)] on a whole file; [None] is
    [UnicodeDecodeError].  An ill-formed sequence is given up at its
    first offending byte, which is decoded again as a lead byte; a
    sequence cut short by the end of the data is one error. *)
Fixpoint utf8_decode (m : errors_mode) (bs : list N) : option str :=
  match bs with
  | [] => Some []
  | b0 :: r0 =>
      if b0 <? 0x80 then emit b0 (utf8_decode m r0)
      else if (0xC2 <=? b0) && (b0 <=? 0xDF) then
        match r0 with
        | [] => on_error m (Some [])
        | b1 :: r1 =>
            if is_cont b1
            then emit ((b0 - 0xC0) * 0x40 + (b1 - 0x80)) (utf8_decode m r1)
            else on_error m (utf8_decode m r0)
        end
      else if (0xE0 <=? b0) && (b0 <=? 0xEF) then
        match r0 with
        | [] => on_error m (Some [])
        | b1 :: r1 =>
            if second_ok b0 b1 then
              match r1 with
              | [] => on_error m (Some [])
              | b2 :: r2 =>
                  if is_cont b2
                  then emit ((b0 - 0xE0) * 0x1000 + (b1 - 0x80) * 0x40
                             + (b2 - 0x80))
                            (utf8_decode m r2)
                  else on_error m (utf8_decode m r1)
              end
            else on_error m (utf8_decode m r0)
        end
      else if (0xF0 <=? b0) && (b0 <=? 0xF4) then
        match r0 with
        | [] => on_error m (Some [])
        | b1 :: r1 =>
            if second_ok b0 b1 then
              match r1 with
              | [] => on_error m (Some [])
              | b2 :: r2 =>
                  if is_cont b2 then
                    match r2 with
                    | [] => on_error m (Some [])
                    | b3 :: r3 =>
                        if is_cont b3
                        then emit ((b0 - 0xF0) * 0x40000
                                   + (b1 - 0x80) * 0x1000
                                   + (b2 - 0x80) * 0x40 + (b3 - 0x80))
                                  (utf8_decode m r3)
                        else on_error m (utf8_decode m r2)
                    end
                  else on_error m (utf8_decode m r1)
              end
            else on_error m (utf8_decode m r0)
        end
      else on_error m (utf8_decode m r0)
  end.

(** Text mode with [newline=None]: [\r\n] and [\r] are read as
    [\n]. *)
Fixpoint universal_newlines (s : str) : str :=
  match s with
  | [] => []
  | c :: r =>
      if c =? 0x0D then
        match r with
        | d :: r' => if d =? 0x0A then 0x0A :: universal_newlines r'
                     else 0x0A :: universal_newlines r
        | [] => [0x0A]
        end
      else c :: universal_newlines r
  end.


(** ** The world outside the program *)

(** What [open(fpath)] followed by [f.read()] finds: the bytes of the
    file, or an [OSError] with its description. *)
Inductive read_result :=
| FileBytes (bs : list byte)
| OSError (e : str).

(** [resp.status_code] and [resp.text]. *)
Record Response := mkResponse { status_code : Z; text : str }.

(** What [requests.post] does: a response, or an exception with its
    description. *)
Inductive post_result :=
| Responded (r : Response)
| RequestException (e : str).

(** The JSON body of the request. *)
Record Payload := mkPayload {
  textContent : str;
  title : str;
  fullPath : str
}.

(** The request: URL, the bearer token of the [Authorization] header
    (the other two headers are constants) and the body. *)
Record Request := mkRequest {
  req_url : str;
  req_bearer : str;
  req_json : Payload
}.

Record Env := mkEnv {
  fs_dir : str -> option Dir;
  fs_read : str -> read_result;
  http_post : Request -> post_result
}.

(** The calls a run makes to the outside. *)
Inductive io :=
| IoOpen (fpath : str)
| IoPost (rq : Request).

Definition is_post (e : io) : bool :=
  match e with IoPost _ => true | IoOpen _ => false end.

(** The HTTP requests among some calls. *)
Definition posts (cs : list io) : nat := length (List.filter is_post cs).

(** ** The upload unit *)

(** [with open(fpath, "r", encoding="utf-8", errors=...) as f:
    content = f.read()]: the text, or the exception's description. *)
Definition read_text (m : errors_mode) (env : Env) (fpath : str)
  : str + str :=
  match fs_read env fpath with
  | OSError e => inr e
  | FileBytes bs =>
      match utf8_decode m (List.map Byte.to_N bs) with
      | Some s => inl (universal_newlines s)
      | None => inr (lit "UnicodeDecodeError")
      end
  end.

(** How the [try] block of the upload ends. *)
Inductive outcome :=
| Uploaded
| HttpFailed (status : Z) (body : str)
| Raised (e : str).

Definition is_success (o : outcome) : bool :=
  match o with Uploaded => true | _ => false end.

Definition build_payload (content fpath : str) : Payload :=
  {| textContent := content; title := basename fpath; fullPath := fpath |}.

(** The [try] block: read, build the payload, post once, classify.
    Returns the outcome and the calls made. *)
Definition attempt (env : Env) (cfg : Config) (fpath : str)
  : outcome * list io :=
  match read_text Replace env fpath with
  | inr e => (Raised e, [IoOpen fpath])
  | inl content =>
      let rq := {| req_url := api_url cfg; req_bearer := api_token cfg;
                   req_json := build_payload content fpath |} in
      match http_post env rq with
      | RequestException e => (Raised e, [IoOpen fpath; IoPost rq])
      | Responded resp =>
          if (status_code resp =? 200)%Z
          then (Uploaded, [IoOpen fpath; IoPost rq])
          else (HttpFailed (status_code resp) (text resp),
                [IoOpen fpath; IoPost rq])
      end
  end.

(** ** The log *)

Inductive level := info | warning | error.

(** The messages of the source, one constructor per f-string, with the
    values it interpolates. *)
Inductive message :=
| MsgStarting (base_dir : str) (ignored : list str)
| MsgFound (n : nat)
| MsgUploaded (fpath : str)
| MsgFailed (fpath : str) (status : Z) (body : str)
| MsgException (fpath : str) (e : str)
| MsgCompleted (success fail : nat)
| MsgStoppedByUser
| MsgStopRequested
| MsgThreadStarted.

(** [log_message(level, msg)]: the line goes to the global
    [_memory_logs]. *)
Definition log_message (lv : level) (msg : message)
  (memory_logs : list (level * message)) : list (level * message) :=
  memory_logs ++ [(lv, msg)].

(** The line an outcome is logged with. *)
Definition outcome_line (fpath : str) (o : outcome) : level * message :=
  match o with
  | Uploaded => (info, MsgUploaded fpath)
  | HttpFailed st body => (error, MsgFailed fpath st body)
  | Raised e => (error, MsgException fpath e)
  end.

(** ** The CLI run: [embed_files_cli] *)

Record CliState := mkCli {
  cli_success : nat;
  cli_fail : nat;
  cli_logs : list (level * message);
  cli_calls : list io
}.

(** One turn of [for fpath in all_files] (lines 107-131). *)
Definition cli_upload (env : Env) (cfg : Config) (st : CliState)
  (fpath : str) : CliState :=
  let '(o, cs) := attempt env cfg fpath in
  {| cli_success := if is_success o then S (cli_success st)
                    else cli_success st;
     cli_fail := if is_success o then cli_fail st else S (cli_fail st);
     cli_logs := log_message (fst (outcome_line fpath o))
                             (snd (outcome_line fpath o)) (cli_logs st);
     cli_calls := cli_calls st ++ cs |}.

(** [os.walk(base_dir)] and the enumeration loop; a [base_dir] that is
    no directory yields nothing. *)
Definition list_files (env : Env) (ignored : list str) (base : str)
  : list str :=
  match fs_dir env base with
  | Some d => enumerate ignored base d
  | None => []
  end.

Record CliRun := mkCliRun {
  cli_all_files : list str;
  cli_final : CliState
}.

Definition embed_files_cli (env : Env) (base : str) (ignored : list str)
  (cfg : Config) (memory_logs : list (level * message)) : CliRun :=
  let logs1 := log_message info (MsgStarting base ignored) memory_logs in
  let all_files := list_files env ignored base in
  let logs2 := log_message info (MsgFound (length all_files)) logs1 in
  let st := fold_left (cli_upload env cfg) all_files
              {| cli_success := 0; cli_fail := 0; cli_logs := logs2;
                 cli_calls := [] |} in
  {| cli_all_files := all_files;
     cli_final :=
       {| cli_success := cli_success st; cli_fail := cli_fail st;
          cli_logs := log_message info
                        (MsgCompleted (cli_success st) (cli_fail st))
                        (cli_logs st);
          cli_calls := cli_calls st |} |}.

(** ** The GUI application: [LlmGuiApp] *)

Record App := mkApp {
  app_config : Config;
  base_dir : str;
  subdirs : list str;
  ignored_dirs : list str;
  embedding_in_progress : bool;
  stop_requested : bool;
  stop_btn_enabled : bool;
  progress_value : nat;
  progress_maximum : nat
}.

(** What the handlers and the thread show or start. *)
Inductive ui :=
| WarnNoConfig
| OpenConfigWindow
| WarnNoFolder
| WarnInProgress
| AskConfirm
| IndexErrorRaised
| InfoDone
| WarnStopped.

Record Started := mkStarted {
  st_app : App;
  st_logs : list (level * message);
  st_shown : list ui;
  st_thread : option (str * list str)
}.

(** [[self.subdirs[i] for i in selected_indices]]; [None] when an
    index is out of range. *)
Fixpoint selected_names (subs : list str) (selection : list nat)
  : option (list str) :=
  match selection with
  | [] => Some []
  | i :: r =>
      match subs !! i, selected_names subs r with
      | Some d, Some ds => Some (d :: ds)
      | _, _ => None
      end
  end.

(** [LlmGuiApp.start_embedding]; [selection] is what the list box has
    selected and [confirm] the answer to the dialog.  [st_thread] holds
    the arguments of the thread when one is started. *)
Definition start_embedding (a : App)
  (memory_logs : list (level * message))
  (selection : list nat) (confirm : bool) : Started :=
  if negb (is_valid (app_config a)) then
    mkStarted a memory_logs [WarnNoConfig; OpenConfigWindow] None
  else if negb (truthy (base_dir a)) then
    mkStarted a memory_logs [WarnNoFolder] None
  else if embedding_in_progress a then
    mkStarted a memory_logs [WarnInProgress] None
  else
    match selected_names (subdirs a) selection with
    | None => mkStarted a memory_logs [IndexErrorRaised] None
    | Some ign =>
        if negb confirm then
          mkStarted
            (mkApp (app_config a) (base_dir a) (subdirs a) ign
                   (embedding_in_progress a) (stop_requested a)
                   (stop_btn_enabled a) (progress_value a)
                   (progress_maximum a))
            memory_logs [AskConfirm] None
        else
          mkStarted
            (mkApp (app_config a) (base_dir a) (subdirs a) ign
                   true false true 0 (progress_maximum a))
            (log_message info MsgThreadStarted memory_logs)
            [AskConfirm] (Some (base_dir a, ign))
    end.

(** [LlmGuiApp.stop_embedding]. *)
Definition stop_embedding (a : App)
  (memory_logs : list (level * message))
  : App * list (level * message) :=
  if negb (embedding_in_progress a) then (a, memory_logs)
  else
    (mkApp (app_config a) (base_dir a) (subdirs a) (ignored_dirs a)
           (embedding_in_progress a) true false (progress_value a)
           (progress_maximum a),
     log_message warning MsgStopRequested memory_logs).

(** ** The threaded run: [embed_files_threaded] (lines 430-511) *)

(** The module defines [embed_files_threaded] twice; the second
    definition replaces the first and is the one the thread runs. *)

(** Where the embedding thread stands. *)
Inductive pc :=
| PcWalk (todo : list (str * list str * list str))
  (** line 442: about to take the next item of [os.walk] *)
| PcFiles (todo : list (str * list str * list str))
          (root : str) (files : list str)
  (** line 446: about to take the next [filename] *)
| PcPool (yielded : nat)
  (** line 488: waiting for the next future of [as_completed] *)
| PcJoin
  (** end of the [with] block: [executor.shutdown(wait=True)] *)
| PcSummary
  (** line 499 *)
| PcFinally
  (** line 506 *)
| PcReport
  (** line 508 *)
| PcDone.

(** Where one call [upload_file(fpath)] of the pool stands. *)
Inductive task :=
| Queued
  (** submitted, not entered yet *)
| InFlight
  (** past the check of line 461: reading and posting *)
| Loaded (o : outcome) (seen : nat)
  (** the outcome is known and [x += 1], a read followed by a write
      with no lock around them, has read [x] as [seen] *)
| Done (o : option outcome).
  (** returned; [None]: returned at line 462 *)

Definition is_done (t : task) : bool :=
  match t with Done _ => true | _ => false end.

Definition count_done (ts : list task) : nat :=
  length (List.filter is_done ts).

(** The state of a run: the application object, the global log, the
    locals of [embed_files_threaded], the futures, and what the run has
    called and shown so far. *)
Record Run := mkRun {
  app : App;
  memory_logs : list (level * message);
  at_line : pc;
  all_files : list str;
  total_files : option nat;
  success_count : nat;
  fail_count : nat;
  futures : list task;
  calls : list io;
  shown : list ui
}.

Definition with_app (a : App) (r : Run) : Run :=
  mkRun a (memory_logs r) (at_line r) (all_files r) (total_files r)
        (success_count r) (fail_count r) (futures r) (calls r) (shown r).

Definition with_logs (l : list (level * message)) (r : Run) : Run :=
  mkRun (app r) l (at_line r) (all_files r) (total_files r)
        (success_count r) (fail_count r) (futures r) (calls r) (shown r).

Definition with_line (p : pc) (r : Run) : Run :=
  mkRun (app r) (memory_logs r) p (all_files r) (total_files r)
        (success_count r) (fail_count r) (futures r) (calls r) (shown r).

Definition with_files (fs : list str) (r : Run) : Run :=
  mkRun (app r) (memory_logs r) (at_line r) fs (total_files r)
        (success_count r) (fail_count r) (futures r) (calls r) (shown r).

Definition with_success (n : nat) (r : Run) : Run :=
  mkRun (app r) (memory_logs r) (at_line r) (all_files r) (total_files r)
        n (fail_count r) (futures r) (calls r) (shown r).

Definition with_fail (n : nat) (r : Run) : Run :=
  mkRun (app r) (memory_logs r) (at_line r) (all_files r) (total_files r)
        (success_count r) n (futures r) (calls r) (shown r).

Definition with_futures (ts : list task) (r : Run) : Run :=
  mkRun (app r) (memory_logs r) (at_line r) (all_files r) (total_files r)
        (success_count r) (fail_count r) ts (calls r) (shown r).

Definition with_calls (cs : list io) (r : Run) : Run :=
  mkRun (app r) (memory_logs r) (at_line r) (all_files r) (total_files r)
        (success_count r) (fail_count r) (futures r) cs (shown r).

Definition with_shown (u : list ui) (r : Run) : Run :=
  mkRun (app r) (memory_logs r) (at_line r) (all_files r) (total_files r)
        (success_count r) (fail_count r) (futures r) (calls r) u.

Definition log (lv : level) (msg : message) (r : Run) : Run :=
  with_logs (log_message lv msg (memory_logs r)) r.

Definition set_progress (v : nat) (a : App) : App :=
  mkApp (app_config a) (base_dir a) (subdirs a) (ignored_dirs a)
        (embedding_in_progress a) (stop_requested a) (stop_btn_enabled a)
        v (progress_maximum a).

Definition set_maximum (v : nat) (a : App) : App :=
  mkApp (app_config a) (base_dir a) (subdirs a) (ignored_dirs a)
        (embedding_in_progress a) (stop_requested a) (stop_btn_enabled a)
        (progress_value a) v.

(** Lines 506-507. *)
Definition finish (a : App) : App :=
  mkApp (app_config a) (base_dir a) (subdirs a) (ignored_dirs a)
        false (stop_requested a) false
        (progress_value a) (progress_maximum a).

(** The run a started thread begins with (lines 431-442). *)
Definition begin_run (env : Env) (a : App)
  (logs : list (level * message)) (base : str) (ignored : list str)
  : Run :=
  {| app := a; memory_logs := logs;
     at_line := PcWalk (match fs_dir env base with
                        | Some d => walk ignored base d
                        | None => []
                        end);
     all_files := []; total_files := None;
     success_count := 0; fail_count := 0;
     futures := []; calls := []; shown := [] |}.

(** Pressing "Start Embedding" and answering the dialog: the run that
    begins, when one does. *)
Definition launch (env : Env) (a : App) (logs : list (level * message))
  (selection : list nat) (confirm : bool) : option Run :=
  let s := start_embedding a logs selection confirm in
  match st_thread s with
  | Some (base, ignored) =>
      Some (with_shown (st_shown s)
              (begin_run env (st_app s) (st_logs s) base ignored))
  | None => None
  end.

(** Lines 452-457 and 487: the total is fixed, the counters start at
    zero and every file is submitted. *)
Definition enter_pool (r : Run) : Run :=
  let n := length (all_files r) in
  mkRun (set_maximum n (app r))
        (log_message info (MsgFound n) (memory_logs r))
        (PcPool 0) (all_files r) (Some n) 0 0
        (replicate n Queued) (calls r) (shown r).

(** One step of the embedding thread; [None] when it waits (for a
    future to complete, for the pool to drain) or has ended. *)
Definition thread_step (r : Run) : option Run :=
  let stop := stop_requested (app r) in
  match at_line r with
  | PcWalk [] => Some (enter_pool r)
  | PcWalk ((root, _, files) :: todo) =>
      if stop then Some (enter_pool r)
      else Some (with_line (PcFiles todo root files) r)
  | PcFiles todo root [] => Some (with_line (PcWalk todo) r)
  | PcFiles todo root (filename :: rest) =>
      if stop then Some (with_line (PcWalk todo) r)
      else Some (with_line (PcFiles todo root rest)
                   (with_files (all_files r ++ [join root filename]) r))
  | PcPool yielded =>
      if (yielded <? count_done (futures r))%nat then
        if stop then Some (with_line PcJoin r)
        else Some (with_line (PcPool (S yielded))
                     (with_app (set_progress (S (progress_value (app r)))
                                             (app r)) r))
      else if (yielded =? length (futures r))%nat
           then Some (with_line PcJoin r)
           else None
  | PcJoin =>
      if forallb is_done (futures r) then Some (with_line PcSummary r)
      else None
  | PcSummary =>
      if stop then
        Some (with_line PcFinally (log warning MsgStoppedByUser r))
      else
        Some (with_line PcFinally
                (with_app (set_progress (length (all_files r)) (app r))
                   (log info (MsgCompleted (success_count r)
                                           (fail_count r)) r)))
  | PcFinally => Some (with_line PcReport (with_app (finish (app r)) r))
  | PcReport =>
      Some (with_line PcDone
              (with_shown (shown r ++ [if stop then WarnStopped
                                       else InfoDone]) r))
  | PcDone => None
  end.

(** [x] of [x += 1] for an outcome: [success_count] or [fail_count]. *)
Definition load_counter (o : outcome) (r : Run) : nat :=
  if is_success o then success_count r else fail_count r.

Definition store_counter (o : outcome) (v : nat) (r : Run) : Run :=
  if is_success o then with_success v r else with_fail v r.

(** [upload_file(fpath)] (lines 459-484) run without interruption. *)
Definition upload_file (env : Env) (fpath : str) (r : Run) : Run :=
  if stop_requested (app r) then r
  else
    let '(o, cs) := attempt env (app_config (app r)) fpath in
    let r1 := with_calls (calls r ++ cs) r in
    let r2 := store_counter o (S (load_counter o r1)) r1 in
    log (fst (outcome_line fpath o)) (snd (outcome_line fpath o)) r2.

(** One step of the pool thread that runs future [i]: the check of
    line 461; the [try] block up to the read of the counter; the write
    of the counter and the log line.  [None] when the future does not
    exist or is done. *)
Definition worker_step (env : Env) (i : nat) (r : Run) : option Run :=
  match futures r !! i, all_files r !! i with
  | Some Queued, Some _ =>
      if stop_requested (app r)
      then Some (with_futures (<[i := Done None]> (futures r)) r)
      else Some (with_futures (<[i := InFlight]> (futures r)) r)
  | Some InFlight, Some fpath =>
      let '(o, cs) := attempt env (app_config (app r)) fpath in
      Some (with_futures (<[i := Loaded o (load_counter o r)]> (futures r))
              (with_calls (calls r ++ cs) r))
  | Some (Loaded o seen), Some fpath =>
      Some (with_futures (<[i := Done (Some o)]> (futures r))
              (log (fst (outcome_line fpath o)) (snd (outcome_line fpath o))
                 (store_counter o (S seen) r)))
  | _, _ => None
  end.

(** What can happen next in a run: the embedding thread or a pool
    thread moves, or the user presses "Stop Embedding" or "Start
    Embedding".  Every interleaving is a schedule; the bound of the
    pool on its threads and the order in which it starts the calls
    only remove schedules. *)
Inductive event :=
| EvThread
| EvWorker (i : nat)
| EvStop
| EvStart (selection : list nat) (confirm : bool).

(** A press of "Start Embedding" belongs to this run while the run is
    in progress; a later one begins a run of its own ([launch]). *)
Definition step (env : Env) (ev : event) (r : Run) : option Run :=
  match ev with
  | EvThread => thread_step r
  | EvWorker i => worker_step env i r
  | EvStop =>
      let '(a, l) := stop_embedding (app r) (memory_logs r) in
      Some (with_logs l (with_app a r))
  | EvStart selection confirm =>
      if embedding_in_progress (app r) then
        let s := start_embedding (app r) (memory_logs r) selection confirm in
        Some (with_shown (shown r ++ st_shown s)
                (with_logs (st_logs s) (with_app (st_app s) r)))
      else None
  end.

(** A schedule run from a state. *)
Fixpoint exec (env : Env) (evs : list event) (r : Run) : option Run :=
  match evs with
  | [] => Some r
  | ev :: rest =>
      match step env ev r with
      | Some r' => exec env rest r'
      | None => None
      end
  end.

(** The states of the runs of an application. *)
Definition reachable (env : Env) (r : Run) : Prop :=
  exists a logs selection r0 evs,
    launch env a logs selection true = Some r0 /\
    exec env evs r0 = Some r.


(** ** Notions the proofs use *)

(** *** Paths *)

(** A path to which [join] appends a separator: not empty and not
    ending in one. *)
Definition open_path (a : str) : bool := truthy a && negb (endswith sep a).

(** What [join] puts between a path and a valid name. *)
Definition glue (a : str) : str := if open_path a then [sep] else [].

Definition tail_of (names : list str) : str := flat_map (cons sep) names.

(** The names along a file's path, the file's own last. *)
Definition comps (p : list str * str) : list str := fst p ++ [snd p].

Definition all_valid (l : list str) : Prop :=
  Forall (fun n => valid_name n = true) l.

(** *** Phases and counts of a run *)

Definition walking (p : pc) : bool :=
  match p with PcWalk _ | PcFiles _ _ _ => true | _ => false end.

Definition after_join (p : pc) : bool :=
  match p with
  | PcSummary | PcFinally | PcReport | PcDone => true
  | _ => false
  end.

Definition after_finally (p : pc) : bool :=
  match p with PcReport | PcDone => true | _ => false end.

(** A call that returned with a success ([k = true]) or a failure
    ([k = false]). *)
Definition done_with (k : bool) (t : task) : bool :=
  match t with Done (Some o) => Bool.eqb (is_success o) k | _ => false end.

Definition count_with (k : bool) (ts : list task) : nat :=
  length (List.filter (done_with k) ts).

(** The file of a future was never read or posted: the call has not
    begun, or it returned at the check of line 461. *)
Definition not_started (t : option task) : Prop :=
  t = None \/ t = Some Queued \/ t = Some (Done None).

(** The paths the enumeration loop has yet to append. *)
Definition pending (p : pc) (acc : list str) : list str :=
  match p with
  | PcWalk todo => acc ++ flat_map item_paths todo
  | PcFiles todo root files =>
      acc ++ List.map (join root) files ++ flat_map item_paths todo
  | _ => acc
  end.

(** The number of steps the enumeration loop has left at most. *)
Definition walk_fuel (p : pc) : nat :=
  match p with
  | PcWalk todo =>
      S (list_sum (List.map (fun it => S (S (length (snd it)))) todo))
  | PcFiles todo _ files =>
      S (S (length files
            + list_sum (List.map (fun it => S (S (length (snd it)))) todo)))
  | _ => 0
  end.

(** Some schedule leads from [r] to [r']. *)
Definition steps (env : Env) (r r' : Run) : Prop :=
  exists evs, exec env evs r = Some r'.

(** *** Invariants of a run *)

(** Before the pool exists nothing is submitted, called or counted;
    from then on the total is the number of enumerated files and there
    is one future per file. *)
Definition inv_shape (r : Run) : Prop :=
  if walking (at_line r) then
    futures r = [] /\ total_files r = None /\ calls r = [] /\
    progress_value (app r) = 0%nat /\
    success_count r = 0%nat /\ fail_count r = 0%nat
  else
    total_files r = Some (length (all_files r)) /\
    length (futures r) = length (all_files r).

Definition inv_progress (r : Run) : Prop :=
  (progress_value (app r) <= count_done (futures r))%nat /\
  (forall y, at_line r = PcPool y -> y = progress_value (app r)) /\
  (after_join (at_line r) = true -> forallb is_done (futures r) = true).

Definition inv_counters (r : Run) : Prop :=
  (success_count r <= count_with true (futures r))%nat /\
  (fail_count r <= count_with false (futures r))%nat /\
  (forall i o v, futures r !! i = Some (Loaded o v) ->
     (v <= count_with (is_success o) (futures r))%nat).

Definition inv_skips (r : Run) : Prop :=
  forall i, futures r !! i = Some (Done None) -> stop_requested (app r) = true.

Definition inv_flag (r : Run) : Prop :=
  embedding_in_progress (app r) = negb (after_finally (at_line r)).

Definition inv_report (r : Run) : Prop :=
  at_line r = PcDone ->
  last (shown r)
  = Some (if stop_requested (app r) then WarnStopped else InfoDone).

Definition inv_shown (r : Run) : Prop :=
  In InfoDone (shown r) \/ In WarnStopped (shown r) -> at_line r = PcDone.

Definition inv_enum (env : Env) (r : Run) : Prop :=
  stop_requested (app r) = false ->
  pending (at_line r) (all_files r)
  = list_files env (ignored_dirs (app r)) (base_dir (app r)).

Definition Inv (env : Env) (r : Run) : Prop :=
  inv_shape r /\ inv_progress r /\ inv_counters r /\ inv_skips r /\
  inv_flag r /\ inv_report r /\ inv_shown r /\ inv_enum env r.

(** ** Concrete inputs *)

Module Ex.

Definition cfg : Config :=
  Config_init (Some (lit "http://localhost:3001/api/v1/document/raw-text"))
              (Some (lit "secret")).

(** A root with [a.txt], an ignored directory, and a kept directory
    that holds a directory of the ignored name further down. *)
Definition tree : Dir :=
  MkDir [lit "a.txt"]
    [ (lit "ignored_dir", MkDir [lit "b.txt"] []);
      (lit "sub",
       MkDir [lit "c.txt"]
         [ (lit "ignored_dir", MkDir [lit "d.txt"] []) ]) ].

Definition ignored : list str := [lit "ignored_dir"].

(** Two files at the top of the root. *)
Definition two_files : Dir := MkDir [lit "a.txt"; lit "b.txt"] [].

(** Every file reads as ["hi"] and the endpoint answers 200. *)
Definition env_ok : Env :=
  {| fs_dir := fun _ => Some two_files;
     fs_read := fun _ => FileBytes [x68; x69]%byte;
     http_post := fun _ => Responded (mkResponse 200 (lit "ok")) |}.

(** No file can be opened. *)
Definition env_unreadable : Env :=
  {| fs_dir := fun _ => Some two_files;
     fs_read := fun _ => OSError (lit "[Errno 2] No such file or directory");
     http_post := fun _ => Responded (mkResponse 200 (lit "ok")) |}.

(** The window after a folder with the subdirectory [sub] was chosen. *)
Definition gui : App :=
  {| app_config := cfg; base_dir := lit "/data";
     subdirs := [lit "sub"]; ignored_dirs := [];
     embedding_in_progress := false; stop_requested := false;
     stop_btn_enabled := false; progress_value := 0;
     progress_maximum := 100 |}.

(** The enumeration loop over [two_files], step by step. *)
Definition walk_all : list event :=
  [EvThread; EvThread; EvThread; EvThread; EvThread].

(** Both uploads run to their end, one after the other. *)
Definition uploads_in_turn : list event :=
  [EvWorker 0; EvWorker 0; EvWorker 0; EvWorker 1; EvWorker 1; EvWorker 1].

(** Both uploads read [success_count] before either writes it. *)
Definition uploads_interleaved : list event :=
  [EvWorker 0; EvWorker 1; EvWorker 0; EvWorker 1; EvWorker 0; EvWorker 1].

(** The loop over [as_completed] for two futures, and the rest of the
    thread. *)
Definition finish_thread : list event :=
  [EvThread; EvThread; EvThread; EvThread; EvThread; EvThread; EvThread].

(** The first upload has begun when the user presses "Stop
    Embedding". *)
Definition stop_during_first_upload : list event :=
  walk_all ++ [EvWorker 0; EvStop].


(** A run of [gui] over [two_files] under a schedule. *)
Definition run_of (env : Env) (evs : list event) : option Run :=
  match launch env gui [] [] true with
  | Some r0 => exec env evs r0
  | None => None
  end.

End Ex.

(** ** The rest of the program *)

(** *** The interactive CLI: [run_cli_mode] (lines 139-187) *)

Definition comma : N := 0x2C.

(** [s.split(c)] for a one-character [c]. *)
Fixpoint split_on (c : N) (s : str) : list str :=
  match s with
  | [] => [[]]
  | x :: r =>
      if x =? c then [] :: split_on c r
      else match split_on c r with
           | p :: ps => (x :: p) :: ps
           | [] => [[x]]
           end
  end.

(** [input(...)]: the next line of the standard input; [None] is
    [EOFError]. *)
Definition input (inputs : list str) : option (str * list str) :=
  match inputs with
  | [] => None
  | l :: rest => Some (l, rest)
  end.

(** [if not x: x = input(...).strip()] for an argument of the command
    line. *)
Definition prompt_if_missing (given : option str) (inputs : list str)
  : option (str * list str) :=
  if truthy (or_empty given) then Some (or_empty given, inputs)
  else match input inputs with
       | Some (l, rest) => Some (strip l, rest)
       | None => None
       end.

(** [os.path.isdir(p)]. *)
Definition isdir (env : Env) (p : str) : bool :=
  match fs_dir env p with Some _ => true | None => false end.

(** [os.listdir] of a directory: all its names, in the order of the
    directory (here the subdirectories first; the callers keep only
    the directories, in their relative order). *)
Definition listdir (d : Dir) : list str :=
  match d with MkDir files subs => List.map fst subs ++ files end.

(** [[d for d in os.listdir(base_dir)
      if os.path.isdir(os.path.join(base_dir, d))]], for a [base_dir]
    that is a directory. *)
Definition list_subdirs (env : Env) (base : str) : list str :=
  match fs_dir env base with
  | Some d => List.filter (fun n => isdir env (join base n)) (listdir d)
  | None => []
  end.

(** The body of the [try] of lines 174-179; [py_int] is [int], [None]
    its [ValueError]. *)
Definition pick_subdir (py_int : str -> option Z) (subdirs : list str)
  (i : str) : option str :=
  match py_int i with
  | Some i_num =>
      if (1 <=? i_num)%Z && (i_num <=? Z.of_nat (length subdirs))%Z
      then subdirs !! Z.to_nat (i_num - 1)
      else None
  | None => None
  end.

(** Lines 170-179: the subdirectories picked by the numbers the user
    typed. *)
Definition choose_ignored (py_int : str -> option Z) (subdirs : list str)
  (user_input : str) : list str :=
  if truthy user_input then
    fold_left
      (fun ignored_dirs i =>
         match pick_subdir py_int subdirs i with
         | Some d => ignored_dirs ++ [d]
         | None => ignored_dirs
         end)
      (List.map strip (split_on comma user_input)) []
  else [].

(** The lines [run_cli_mode] logs itself. *)
Inductive note :=
| NoteInvalidConfig
| NoteCliMode
| NoteInvalidDirectory (base_dir : str)
| NoteNoSubdirs
| NoteIgnoring (ignored : list str)
| NoteNoneIgnored.

(** How [run_cli_mode] ends: [sys.exit(1)], an [EOFError] of [input],
    or the call of [embed_files_cli]. *)
Inductive cli_end :=
| Exit1
| EOFError
| Embedded (base : str) (ignored : list str) (cfg : Config) (run : CliRun).

(** The end of a session, the lines it logged before the upload, and
    the input it left unread. *)
Record CliSession := mkSession {
  cs_end : cli_end;
  cs_notes : list (level * note);
  cs_unread : list str
}.

(** Lines 155-157: ask until the answer is a directory. *)
Fixpoint ask_directory (env : Env) (base_dir : str) (inputs : list str)
  (notes : list (level * note))
  : option (str * list str) * list (level * note) :=
  if isdir env base_dir then (Some (base_dir, inputs), notes)
  else
    let notes' := notes ++ [(warning, NoteInvalidDirectory base_dir)] in
    match inputs with
    | [] => (None, notes')
    | l :: rest => ask_directory env (strip l) rest notes'
    end.

(** Lines 181-187. *)
Definition confirm_and_embed (env : Env) (base : str) (ignored : list str)
  (cfg : Config) (notes : list (level * note)) (inputs : list str)
  : CliSession :=
  let notes' :=
    notes ++ [(info, match ignored with
                     | [] => NoteNoneIgnored
                     | _ :: _ => NoteIgnoring ignored
                     end)] in
  match input inputs with
  | None => mkSession EOFError notes' []
  | Some (_, rest) =>
      mkSession (Embedded base ignored cfg
                   (embed_files_cli env base ignored cfg []))
                notes' rest
  end.

(** The arguments of the command line. *)
Record Args := mkArgs {
  arg_cli : bool;
  arg_api_url : option str;
  arg_api_token : option str;
  arg_log : bool
}.

Definition run_cli_mode (py_int : str -> option Z) (env : Env)
  (args : Args) (inputs : list str) : CliSession :=
  match prompt_if_missing (arg_api_url args) inputs with
  | None => mkSession EOFError [] []
  | Some (url, in1) =>
  match prompt_if_missing (arg_api_token args) in1 with
  | None => mkSession EOFError [] []
  | Some (token, in2) =>
      let app_config := Config_init (Some url) (Some token) in
      if negb (is_valid app_config) then
        mkSession Exit1 [(error, NoteInvalidConfig)] in2
      else
        match input in2 with
        | None => mkSession EOFError [(info, NoteCliMode)] []
        | Some (l, in3) =>
        match ask_directory env (strip l) in3 [(info, NoteCliMode)] with
        | (None, notes) => mkSession EOFError notes []
        | (Some (base, in4), notes) =>
            match list_subdirs env base with
            | [] =>
                confirm_and_embed env base [] app_config
                  (notes ++ [(info, NoteNoSubdirs)]) in4
            | (_ :: _) as subs =>
                match input in4 with
                | None => mkSession EOFError notes []
                | Some (l', in5) =>
                    confirm_and_embed env base
                      (choose_ignored py_int subs (strip l'))
                      app_config notes in5
                end
            end
        end
        end
  end
  end.

(** *** The rest of the GUI *)

(** What the handlers below show or do besides changing the
    application object. *)
Inductive gui_effect :=
| InfoConfigurationNeeded
| ConfigWindowOpened
| DirectoryAsked
| ListdirRaised
| WarnInvalidConfig
| UpdatedConfigLogged (url : str)
| ConfigWindowClosed.

(** [LlmGuiApp.__init__]: the fields of a new window (100 is the
    maximum of a new progress bar). *)
Definition new_app (cfg : Config) : App :=
  {| app_config := cfg; base_dir := []; subdirs := []; ignored_dirs := [];
     embedding_in_progress := false; stop_requested := false;
     stop_btn_enabled := false; progress_value := 0;
     progress_maximum := 100 |}.

(** [run_gui_mode]: the window the GUI starts with. *)
Definition run_gui_mode (args : Args) : App :=
  new_app (Config_init (Some (or_empty (arg_api_url args)))
                       (Some (or_empty (arg_api_token args)))).

(** [main] after the parsing of the arguments. *)
Inductive session :=
| CliMode (s : CliSession)
| GuiMode (a : App).

Definition main (py_int : str -> option Z) (env : Env) (args : Args)
  (inputs : list str) : session :=
  if arg_cli args then CliMode (run_cli_mode py_int env args inputs)
  else GuiMode (run_gui_mode args).

Definition set_config (cfg : Config) (a : App) : App :=
  mkApp cfg (base_dir a) (subdirs a) (ignored_dirs a)
        (embedding_in_progress a) (stop_requested a) (stop_btn_enabled a)
        (progress_value a) (progress_maximum a).

(** [ConfigWindow.save_config]; the window holds the configuration
    object of the application itself, so the two assignments change the
    application before the check. *)
Definition save_config (a : App) (url_entry token_entry : str)
  : App * list gui_effect :=
  let cfg := mkConfig (strip url_entry) (strip token_entry) in
  if negb (is_valid cfg) then (set_config cfg a, [WarnInvalidConfig])
  else (set_config cfg a,
        [UpdatedConfigLogged (api_url cfg); ConfigWindowClosed]).

Definition set_folder (base : str) (subs : list str) (a : App) : App :=
  mkApp (app_config a) base subs (ignored_dirs a)
        (embedding_in_progress a) (stop_requested a) (stop_btn_enabled a)
        (progress_value a) (progress_maximum a).

(** [LlmGuiApp.select_folder]; [chosen] is the answer of the directory
    dialog, empty when it was cancelled.  When [os.listdir] raises,
    [base_dir] is already assigned and [subdirs] is not. *)
Definition select_folder (env : Env) (a : App) (chosen : str)
  : App * list gui_effect :=
  if negb (is_valid (app_config a)) then
    (a, [InfoConfigurationNeeded; ConfigWindowOpened])
  else if truthy chosen then
    if isdir env chosen then
      (set_folder chosen (list_subdirs env chosen) a, [DirectoryAsked])
    else (set_folder chosen (subdirs a) a, [DirectoryAsked; ListdirRaised])
  else (a, [DirectoryAsked]).

(** ** Further notions the proofs use *)

(** A directory tree found where the file system says it is: the tree
    at [base] is [d], and among the names of [d] the directories are
    its subdirectories. *)
Definition coherent (env : Env) (base : str) (d : Dir) : Prop :=
  fs_dir env base = Some d /\
  Forall (fun s => isdir env (join base (fst s)) = true)
         (match d with MkDir _ subs => subs end) /\
  Forall (fun f => isdir env (join base f) = false)
         (match d with MkDir files _ => files end).

(** The files a list of calls opened, and the paths it posted. *)
Definition opened (cs : list io) : list str :=
  omap (fun c => match c with IoOpen f => Some f | IoPost _ => None end) cs.

Definition posted (cs : list io) : list Request :=
  omap (fun c => match c with IoPost rq => Some rq | IoOpen _ => None end) cs.

(** A call past its [try] block: the file was opened. *)
Definition past_io (t : task) : bool :=
  match t with Loaded _ _ | Done (Some _) => true | _ => false end.


(** The files whose call is past its [try] block: [fs] are the files
    and [ts] the futures submitted for them, in the same order. *)
Fixpoint started_files (fs : list str) (ts : list task) : list str :=
  match fs, ts with
  | f :: fs', t :: ts' =>
      if past_io t then f :: started_files fs' ts' else started_files fs' ts'
  | _, _ => []
  end.

(** The paths a list of calls posted. *)
Definition posted_paths (cs : list io) : list str :=
  List.map (fun rq => fullPath (req_json rq)) (posted cs).

Definition inv_once (r : Run) : Prop :=
  opened (calls r) ≡ₚ started_files (all_files r) (futures r) /\
  sublist (posted_paths (calls r)) (opened (calls r)).





Definition inv_prefix (env : Env) (r : Run) : Prop :=
  exists rest,
    all_files r ++ rest
    = list_files env (ignored_dirs (app r)) (base_dir (app r)).


Definition inv_bar (r : Run) : Prop :=
  (walking (at_line r) = false ->
   progress_maximum (app r) = length (all_files r)) /\
  (after_join (at_line r) = true -> at_line r <> PcSummary ->
   stop_requested (app r) = false ->
   progress_value (app r) = length (all_files r)).

(** ** More concrete inputs *)

Module Ex2.

(** [int] on the strings used below: a string of ASCII digits is read
    as its number, the other strings used here raise. *)
Definition digits_int (s : str) : option Z :=
  match s with
  | [] => None
  | _ :: _ =>
      fold_left
        (fun acc c =>
           match acc with
           | Some n =>
               if (0x30 <=? c) && (c <=? 0x39)
               then Some (10 * n + Z.of_N (c - 0x30))%Z
               else None
           | None => None
           end)
        s (Some 0%Z)
  end.

(** The tree of [Ex.tree] at [/data], with its subdirectories where
    their paths say. *)
Definition env : Env :=
  {| fs_dir := fun p =>
       if bool_decide (p = lit "/data") then Some Ex.tree
       else if bool_decide (p = lit "/data/ignored_dir")
       then Some (MkDir [lit "b.txt"] [])
       else if bool_decide (p = lit "/data/sub")
       then Some (MkDir [lit "c.txt"]
                    [(lit "ignored_dir", MkDir [lit "d.txt"] [])])
       else if bool_decide (p = lit "/data/sub/ignored_dir")
       then Some (MkDir [lit "d.txt"] [])
       else None;
     fs_read := fun _ => FileBytes [x68; x69]%byte;
     http_post := fun _ => Responded (mkResponse 200 (lit "ok")) |}.

(** URL and token given on the command line. *)
Definition args : Args :=
  {| arg_cli := true;
     arg_api_url := Some (lit "http://localhost:3001/api/v1/document/raw-text");
     arg_api_token := Some (lit "secret");
     arg_log := false |}.

(** The user types a wrong path, then [/data], picks the first
    subdirectory among other answers, and presses Enter. *)
Definition typed : list str :=
  [lit "/nowhere"; lit " /data "; lit "1, x,0,7"; lit ""].

(** The user presses "Stop Embedding" when the walk over
    [Ex.two_files] has found the first file. *)
Definition stop_during_walk : list event :=
  [EvThread; EvThread; EvStop; EvThread; EvThread].

(** After that: the one submitted call is turned away and the thread
    reports. *)
Definition drain_stopped_walk : list event :=
  [EvWorker 0; EvThread; EvThread; EvThread; EvThread; EvThread].

(** The GUI started with the same URL and token. *)
Definition gui_args : Args :=
  {| arg_cli := false;
     arg_api_url := arg_api_url args;
     arg_api_token := arg_api_token args;
     arg_log := false |}.

(** A whole run over [Ex.tree] with [ignored_dir] ignored: the walk
    finds two files, they are uploaded one after the other, and the
    thread reports. *)
Definition whole_run : list event :=
  [EvThread; EvThread; EvThread; EvThread; EvThread; EvThread; EvThread]
  ++ Ex.uploads_in_turn ++ Ex.finish_thread.

End Ex2.

(** * Part II: proofs *)

(** ** Strings and [Config.is_valid] *)

Section StrFacts.

Lemma lstrip_truthy (s : str) :
  truthy (lstrip s) = true <-> exists c, In c s /\ isspace c = false.
Proof.
  induction s as [|x r IH]; simpl.
  - split; [discriminate | intros (c & [] & _)].
  - destruct (isspace x) eqn:Hx.
    + rewrite IH. split.
      * intros (c & Hc & Hs). exists c. auto.
      * intros (c & [<- | Hc] & Hs); [congruence | eauto].
    + split; [intros _; exists x; auto | reflexivity].
Qed.

Lemma truthy_rev (s : str) : truthy (rev s) = truthy s.
Proof.
  destruct s as [|x r]; [reflexivity|]. simpl.
  destruct (rev r ++ [x]) eqn:E; [|reflexivity].
  apply app_eq_nil in E. destruct E; discriminate.
Qed.

Lemma lstrip_suffix (s : str) : exists p, s = p ++ lstrip s.
Proof.
  induction s as [|x r [p Hp]]; simpl.
  - exists []. reflexivity.
  - destruct (isspace x).
    + exists (x :: p). simpl. congruence.
    + exists []. reflexivity.
Qed.

Lemma lstrip_head (s : str) x r : lstrip s = x :: r -> isspace x = false.
Proof.
  induction s as [|z u IH]; simpl; [discriminate|].
  destruct (isspace z) eqn:Hz; [exact IH|]. congruence.
Qed.

Lemma strip_truthy (s : str) :
  truthy (strip s) = true <-> exists c, In c s /\ isspace c = false.
Proof.
  unfold strip, rstrip. rewrite truthy_rev, lstrip_truthy. split.
  - intros (c & Hc & Hs). exists c. split; [|exact Hs].
    apply in_rev in Hc.
    destruct (lstrip_suffix s) as [p Hp]. rewrite Hp.
    apply in_or_app. right. exact Hc.
  - intros Hex. apply lstrip_truthy in Hex.
    destruct (lstrip s) as [|x r] eqn:E; [discriminate|].
    exists x. split; [|exact (lstrip_head _ _ _ E)].
    apply in_rev. rewrite rev_involutive. left. reflexivity.
Qed.

End StrFacts.

(** C10. [Config.is_valid] answers true exactly when the URL and the
    token each hold at least one character that is not whitespace; a
    field of whitespace only is rejected like an empty one; and the
    answer is a function of those two fields alone. *)
Theorem is_valid_iff_non_whitespace :
  forall c : Config,
    (is_valid c = true <->
       (exists u, In u (api_url c) /\ isspace u = false) /\
       (exists t, In t (api_token c) /\ isspace t = false)) /\
    (forall ws, Forall (fun x => isspace x = true) ws ->
       is_valid (mkConfig ws (api_token c)) = false /\
       is_valid (mkConfig (api_url c) ws) = false /\
       is_valid (mkConfig ws (api_token c))
         = is_valid (mkConfig [] (api_token c)) /\
       is_valid (mkConfig (api_url c) ws)
         = is_valid (mkConfig (api_url c) [])) /\
    (forall c', api_url c' = api_url c -> api_token c' = api_token c ->
       is_valid c' = is_valid c).
Proof.
  intros c. split; [|split].
  - unfold is_valid. rewrite andb_true_iff, !strip_truthy. reflexivity.
  - intros ws Hws.
    assert (Hw : truthy (strip ws) = false).
    { apply not_true_is_false. rewrite strip_truthy.
      intros (x & Hx & Hs). rewrite Forall_forall in Hws.
      apply list_elem_of_In in Hx. specialize (Hws x Hx). congruence. }
    unfold is_valid; simpl. rewrite Hw.
    repeat split; try reflexivity; apply andb_false_r.
  - intros c' Hu Ht. unfold is_valid. rewrite Hu, Ht. reflexivity.
Qed.

(** ** The enumeration *)

Lemma Dir_ind (P : Dir -> Prop) :
  (forall files subs, Forall (fun s => P (snd s)) subs -> P (MkDir files subs)) ->
  forall d, P d.
Proof.
  intros H. fix IH 1. intros [files subs]. apply H.
  induction subs as [|s r IHr]; constructor; [apply IH | exact IHr].
Qed.

Lemma filter_flat_map {A B} (p : B -> bool) (f : A -> list B) l :
  List.filter p (flat_map f l) = flat_map (fun x => List.filter p (f x)) l.
Proof.
  induction l as [|x r IH]; simpl; [reflexivity|].
  rewrite List.filter_app, IH. reflexivity.
Qed.

Lemma map_flat_map {A B C} (g : B -> C) (f : A -> list B) l :
  List.map g (flat_map f l) = flat_map (fun x => List.map g (f x)) l.
Proof.
  induction l as [|x r IH]; simpl; [reflexivity|].
  rewrite List.map_app, IH. reflexivity.
Qed.

Lemma flat_map_flat_map {A B C} (g : B -> list C) (f : A -> list B) l :
  flat_map g (flat_map f l) = flat_map (fun x => flat_map g (f x)) l.
Proof.
  induction l as [|x r IH]; simpl; [reflexivity|].
  rewrite flat_map_app, IH. reflexivity.
Qed.

Lemma flat_map_ext_Forall {A B} (f g : A -> list B) l :
  Forall (fun x => f x = g x) l -> flat_map f l = flat_map g l.
Proof. induction 1; simpl; congruence. Qed.

Lemma enumerate_unfold ignored top files subs :
  enumerate ignored top (MkDir files subs)
  = List.map (join top) files
    ++ flat_map (fun s => if mem (fst s) ignored then []
                          else enumerate ignored (join top (fst s)) (snd s))
                subs.
Proof.
  unfold enumerate. simpl. f_equal.
  rewrite flat_map_flat_map. apply flat_map_ext_Forall, Forall_forall.
  intros s _. destruct (mem (fst s) ignored); reflexivity.
Qed.

Lemma under_ignored_below ignored n p :
  under_ignored ignored (below n p) = mem n ignored || under_ignored ignored p.
Proof. reflexivity. Qed.

Lemma filter_below ignored n l :
  List.filter (fun p => negb (under_ignored ignored p)) (List.map (below n) l)
  = if mem n ignored then []
    else List.map (below n)
           (List.filter (fun p => negb (under_ignored ignored p)) l).
Proof.
  induction l as [|p r IH]; simpl.
  - destruct (mem n ignored); reflexivity.
  - rewrite IH, under_ignored_below.
    destruct (mem n ignored); simpl; [reflexivity|].
    destruct (under_ignored ignored p); reflexivity.
Qed.

Lemma path_of_below top n l :
  List.map (path_of top) (List.map (below n) l)
  = List.map (path_of (join top n)) l.
Proof. rewrite List.map_map. reflexivity. Qed.

Lemma enumerate_refines (ignored : list str) (d : Dir) :
  forall top,
    enumerate ignored top d
    = List.map (path_of top)
        (List.filter (fun p => negb (under_ignored ignored p)) (tree_files d)).
Proof.
  induction d as [files subs IH] using Dir_ind. intros top.
  rewrite enumerate_unfold. simpl tree_files.
  rewrite List.filter_app, List.map_app. f_equal.
  - induction files as [|f r IHf]; simpl; [reflexivity|]. f_equal. exact IHf.
  - rewrite filter_flat_map, map_flat_map.
    apply flat_map_ext_Forall.
    eapply Forall_impl; [exact IH|]. intros s Hs; simpl in Hs.
    rewrite filter_below.
    destruct (mem (fst s) ignored); [reflexivity|].
    rewrite path_of_below. apply Hs.
Qed.

(** *** Paths of valid names *)

Lemma mem_In x l : mem x l = true <-> In x l.
Proof.
  unfold mem. rewrite existsb_exists. split.
  - intros (y & Hy & He). apply bool_decide_eq_true in He. congruence.
  - intros H. exists x. split; [exact H|]. apply bool_decide_eq_true. reflexivity.
Qed.

Lemma nodupb_NoDup l : nodupb l = true -> NoDup l.
Proof.
  induction l as [|x r IH]; simpl; [constructor|].
  rewrite andb_true_iff, negb_true_iff. intros [Hx Hr].
  constructor; [|auto].
  intros Hin. apply list_elem_of_In, mem_In in Hin. congruence.
Qed.

Lemma valid_name_spec n :
  valid_name n = true <-> n <> [] /\ ~ In sep n.
Proof.
  unfold valid_name. rewrite andb_true_iff, negb_true_iff. split.
  - intros [Ht He]. split; [intros ->; discriminate|].
    intros Hin. apply not_true_iff_false in He. apply He.
    apply existsb_exists. exists sep. split; [exact Hin | apply N.eqb_refl].
  - intros [Hn Hs]. split; [destruct n; [congruence | reflexivity]|].
    apply not_true_iff_false. intros He. apply existsb_exists in He.
    destruct He as (y & Hy & Heq). apply N.eqb_eq in Heq. subst y. auto.
Qed.

Lemma valid_not_startswith n : valid_name n = true -> startswith sep n = false.
Proof.
  intros [Hn Hs]%valid_name_spec. destruct n as [|x r]; [reflexivity|]. simpl.
  apply N.eqb_neq. intros ->. apply Hs. left. reflexivity.
Qed.

Lemma endswith_app a x : endswith sep (a ++ [x]) = (x =? sep).
Proof. unfold endswith. rewrite rev_app_distr. reflexivity. Qed.

Lemma valid_last n :
  valid_name n = true -> exists m x, n = m ++ [x] /\ x <> sep.
Proof.
  intros [Hn Hs]%valid_name_spec.
  destruct (exists_last Hn) as (m & x & ->). exists m, x. split; [reflexivity|].
  intros ->. apply Hs, in_or_app. right. left. reflexivity.
Qed.

Lemma open_path_app a n : valid_name n = true -> open_path (a ++ n) = true.
Proof.
  intros (m & x & -> & Hx)%valid_last. unfold open_path.
  rewrite app_assoc, endswith_app.
  apply N.eqb_neq in Hx. rewrite Hx.
  destruct (a ++ m); reflexivity.
Qed.

Lemma join_valid a n : valid_name n = true -> join a n = a ++ glue a ++ n.
Proof.
  intros Hn. unfold join, glue, open_path. rewrite (valid_not_startswith _ Hn).
  destruct (truthy a); simpl; [|reflexivity].
  destruct (endswith sep a); reflexivity.
Qed.

Lemma join_open a n : valid_name n = true -> open_path (join a n) = true.
Proof.
  intros Hn. rewrite (join_valid _ _ Hn), app_assoc. apply open_path_app, Hn.
Qed.

Lemma fold_join_open comps : forall a,
  Forall (fun n => valid_name n = true) comps -> open_path a = true ->
  fold_left join comps a = a ++ tail_of comps.
Proof.
  induction comps as [|c cs IH]; intros a Hv Ho; simpl.
  - rewrite app_nil_r. reflexivity.
  - inversion Hv as [|? ? Hc Hcs]; subst.
    rewrite IH by (auto using join_open).
    rewrite (join_valid _ _ Hc). unfold glue. rewrite Ho.
    rewrite <- !app_assoc. reflexivity.
Qed.

Lemma path_of_comps base p : path_of base p = fold_left join (comps p) base.
Proof. unfold path_of, comps. rewrite fold_left_app. reflexivity. Qed.

Lemma fold_join_cons base c cs :
  Forall (fun n => valid_name n = true) (c :: cs) ->
  fold_left join (c :: cs) base = base ++ glue base ++ c ++ tail_of cs.
Proof.
  intros Hv. inversion Hv as [|? ? Hc Hcs]; subst. simpl.
  rewrite fold_join_open by (auto using join_open).
  rewrite (join_valid _ _ Hc). rewrite <- !app_assoc. reflexivity.
Qed.

Lemma name_prefix_inj (c c' t t' : str) :
  ~ In sep c -> ~ In sep c' ->
  (t = [] \/ exists u, t = sep :: u) -> (t' = [] \/ exists u, t' = sep :: u) ->
  c ++ t = c' ++ t' -> c = c' /\ t = t'.
Proof.
  revert c'. induction c as [|x r IH]; intros [|y r'] Hc Hc' Ht Ht' E; simpl in *.
  - auto.
  - exfalso. destruct Ht as [-> | [u ->]]; [discriminate|].
    injection E as <- _. apply Hc'. left. reflexivity.
  - exfalso. destruct Ht' as [-> | [u ->]]; [discriminate|].
    injection E as -> _. apply Hc. left. reflexivity.
  - injection E as -> E. destruct (IH r') as [-> ->]; auto.
Qed.

Lemma tail_of_shape cs : tail_of cs = [] \/ exists u, tail_of cs = sep :: u.
Proof. destruct cs; [left; reflexivity | right; eexists; reflexivity]. Qed.

Lemma comps_inj cs : forall cs' c c',
  Forall (fun n => valid_name n = true) (c :: cs) ->
  Forall (fun n => valid_name n = true) (c' :: cs') ->
  c ++ tail_of cs = c' ++ tail_of cs' -> c :: cs = c' :: cs'.
Proof.
  induction cs as [|d ds IH]; intros cs' c c' Hv Hv' E;
    inversion Hv as [|? ? Hc Hcs]; inversion Hv' as [|? ? Hc' Hcs']; subst;
    apply valid_name_spec in Hc as [_ Hc]; apply valid_name_spec in Hc' as [_ Hc'];
    destruct (name_prefix_inj _ _ _ _ Hc Hc' (tail_of_shape _) (tail_of_shape _) E)
      as [-> Et].
  - destruct cs'; [reflexivity | discriminate].
  - destruct cs' as [|d' ds']; [discriminate|]. simpl in Et.
    injection Et as Et. f_equal. apply IH; assumption.
Qed.

Lemma path_of_inj base p q :
  Forall (fun n => valid_name n = true) (comps p) ->
  Forall (fun n => valid_name n = true) (comps q) ->
  path_of base p = path_of base q -> p = q.
Proof.
  intros Hp Hq E. rewrite !path_of_comps in E.
  assert (Hc : comps p = comps q).
  { destruct (comps p) as [|c cs] eqn:Ep;
      [destruct p as [[|? ?] ?]; discriminate|].
    destruct (comps q) as [|c' cs'] eqn:Eq;
      [destruct q as [[|? ?] ?]; discriminate|].
    rewrite !fold_join_cons in E by assumption.
    apply app_inv_head, app_inv_head in E. apply comps_inj; assumption. }
  unfold comps in Hc. apply app_inj_tail in Hc as [H1 H2].
  destruct p, q; simpl in *; congruence.
Qed.

(** *** Well-formed trees *)

Lemma wf_dir_unfold files subs :
  wf_dir (MkDir files subs) = true ->
  all_valid files /\ NoDup files /\
  all_valid (List.map fst subs) /\ NoDup (List.map fst subs) /\
  Forall (fun s => wf_dir (snd s) = true) subs.
Proof.
  simpl. rewrite !andb_true_iff. intros [[[[H1 H2] H3] H4] H5].
  unfold all_valid.
  rewrite !Forall_forall. repeat split.
  - intros x Hx. apply list_elem_of_In in Hx.
    rewrite forallb_forall in H1. auto.
  - apply nodupb_NoDup, H2.
  - intros x Hx. apply list_elem_of_In in Hx.
    rewrite forallb_forall in H3. auto.
  - apply nodupb_NoDup, H4.
  - intros x Hx. apply list_elem_of_In in Hx.
    rewrite forallb_forall in H5. auto.
Qed.

Lemma tree_files_valid d :
  wf_dir d = true -> forall p, In p (tree_files d) -> all_valid (comps p).
Proof.
  induction d as [files subs IH] using Dir_ind.
  intros (Hf & _ & Hn & _ & Hs)%wf_dir_unfold p Hp.
  simpl in Hp. apply in_app_or in Hp as [Hp | Hp].
  - apply in_map_iff in Hp as (f & <- & Hf'). unfold comps; simpl.
    constructor; [|constructor].
    unfold all_valid in Hf. rewrite Forall_forall in Hf.
    apply Hf, list_elem_of_In, Hf'.
  - apply in_flat_map in Hp as (s & Hs' & Hp).
    apply in_map_iff in Hp as (q & <- & Hq).
    unfold comps, below; simpl. constructor.
    + unfold all_valid in Hn. rewrite Forall_forall in Hn.
      apply Hn, list_elem_of_In, in_map, Hs'.
    + rewrite Forall_forall in IH, Hs. apply list_elem_of_In in Hs'.
      apply (IH s Hs' (Hs s Hs') q Hq).
Qed.

Lemma below_inj n p q : below n p = below n q -> p = q.
Proof. destruct p, q; unfold below; simpl; congruence. Qed.

Lemma NoDup_map_inj {A B} (f : A -> B) l :
  (forall x y, f x = f y -> x = y) -> NoDup l -> NoDup (List.map f l).
Proof.
  intros Hf. induction 1 as [|x l Hx Hl IH]; simpl; constructor; [|exact IH].
  intros Hin. apply list_elem_of_In, in_map_iff in Hin as (y & Hy & Hin).
  apply Hf in Hy. subst y. apply Hx, list_elem_of_In, Hin.
Qed.

Lemma tree_files_NoDup d : wf_dir d = true -> NoDup (tree_files d).
Proof.
  induction d as [files subs IH] using Dir_ind.
  intros (_ & Hf & _ & Hn & Hs)%wf_dir_unfold. simpl.
  apply NoDup_app. split; [|split].
  - apply NoDup_map_inj; [congruence | exact Hf].
  - intros p Hp Hq. apply list_elem_of_In in Hp, Hq.
    apply in_map_iff in Hp as (f & <- & _).
    apply in_flat_map in Hq as (s & _ & Hq).
    apply in_map_iff in Hq as (q & Hq & _). discriminate.
  - clear Hf. induction subs as [|s r IHr]; simpl; [constructor|].
    inversion IH as [|? ? IHs IHr']; subst.
    inversion Hs as [|? ? Hs1 Hs2]; subst.
    simpl in Hn. inversion Hn as [|? ? Hn1 Hn2]; subst.
    apply NoDup_app. split; [|split].
    + apply NoDup_map_inj; [apply below_inj | auto].
    + intros p Hp Hq. apply list_elem_of_In in Hp, Hq.
      apply in_map_iff in Hp as (q1 & <- & _).
      apply in_flat_map in Hq as (s' & Hs' & Hq).
      apply in_map_iff in Hq as (q2 & Hq & _).
      apply Hn1, list_elem_of_In, in_map_iff. exists s'. split; [|exact Hs'].
      unfold below in Hq. congruence.
    + auto.
Qed.

Lemma NoDup_map_inj_in {A B} (f : A -> B) l :
  (forall x y, In x l -> In y l -> f x = f y -> x = y) ->
  NoDup l -> NoDup (List.map f l).
Proof.
  intros Hf Hn. induction Hn as [|x l Hx Hl IH]; simpl; constructor.
  - intros Hin. apply list_elem_of_In, in_map_iff in Hin as (y & Hy & Hin).
    apply Hf in Hy; [|right; exact Hin | left; reflexivity].
    subst y. apply Hx, list_elem_of_In, Hin.
  - apply IH. intros y z Hy Hz. apply Hf; right; assumption.
Qed.

Lemma NoDup_filter' {A} (p : A -> bool) l : NoDup l -> NoDup (List.filter p l).
Proof.
  induction 1 as [|x l Hx Hl IH]; simpl; [constructor|].
  destruct (p x); [|exact IH]. constructor; [|exact IH].
  intros Hin. apply Hx. apply list_elem_of_In in Hin.
  apply filter_In in Hin as [Hin _]. apply list_elem_of_In, Hin.
Qed.

Section Enumeration.

Variables (ignored : list str) (base : str) (d : Dir).
Hypothesis Hwf : wf_dir d = true.

Lemma enumerate_In s :
  In s (enumerate ignored base d) <->
  exists p, In p (tree_files d) /\ under_ignored ignored p = false
            /\ s = path_of base p.
Proof.
  rewrite enumerate_refines, in_map_iff. split.
  - intros (p & <- & Hp). apply filter_In in Hp as [Hp Hk].
    exists p. rewrite negb_true_iff in Hk. auto.
  - intros (p & Hp & Hk & ->). exists p. split; [reflexivity|].
    apply filter_In. rewrite Hk. auto.
Qed.

Lemma enumerate_NoDup : NoDup (enumerate ignored base d).
Proof.
  rewrite enumerate_refines. apply NoDup_map_inj_in.
  - intros p q Hp%filter_In Hq%filter_In.
    apply path_of_inj; apply (tree_files_valid d Hwf); tauto.
  - apply NoDup_filter', tree_files_NoDup, Hwf.
Qed.


End Enumeration.

(** ** The threaded run *)

Lemma start_embedding_rejected a logs selection confirm :
  embedding_in_progress a = true ->
  st_app (start_embedding a logs selection confirm) = a /\
  st_logs (start_embedding a logs selection confirm) = logs /\
  st_thread (start_embedding a logs selection confirm) = None /\
  (exists w, In w [WarnNoConfig; WarnNoFolder; WarnInProgress] /\
             In w (st_shown (start_embedding a logs selection confirm))) /\
  (forall u, In u (st_shown (start_embedding a logs selection confirm)) ->
             u <> InfoDone /\ u <> WarnStopped) /\
  (is_valid (app_config a) = true -> truthy (base_dir a) = true ->
   st_shown (start_embedding a logs selection confirm) = [WarnInProgress]).
Proof.
  intros Hp. unfold start_embedding. rewrite Hp.
  destruct (is_valid (app_config a)); simpl;
    [destruct (truthy (base_dir a)); simpl|];
    (split; [reflexivity|]); (split; [reflexivity|]);
    (split; [reflexivity|]); (split; [|split; [|intros; congruence]]).
  - exists WarnInProgress. simpl. auto.
  - intros u [<-|[]]. split; discriminate.
  - exists WarnNoFolder. simpl. auto.
  - intros u [<-|[]]. split; discriminate.
  - exists WarnNoConfig. simpl. auto.
  - intros u [<-|[<-|[]]]; split; discriminate.
Qed.

Lemma exec_app env evs1 evs2 r :
  exec env (evs1 ++ evs2) r
  = match exec env evs1 r with Some r1 => exec env evs2 r1 | None => None end.
Proof.
  revert r. induction evs1 as [|ev evs IH]; intros r; simpl; [reflexivity|].
  destruct (step env ev r); [apply IH | reflexivity].
Qed.

Lemma reachable_step env ev r r' :
  reachable env r -> step env ev r = Some r' -> reachable env r'.
Proof.
  intros (a & logs & sel & r0 & evs & Hl & He) Hs.
  exists a, logs, sel, r0, (evs ++ [ev]). split; [exact Hl|].
  rewrite exec_app, He. simpl. rewrite Hs. reflexivity.
Qed.


Lemma reachable_ind env (P : Run -> Prop) :
  (forall a logs selection r0,
      launch env a logs selection true = Some r0 -> P r0) ->
  (forall ev r r', reachable env r -> P r -> step env ev r = Some r' -> P r') ->
  forall r, reachable env r -> P r.
Proof.
  intros Hinit Hstep r (a & logs & sel & r0 & evs & Hl & He).
  revert r He. induction evs as [|ev evs IH] using rev_ind; intros r He.
  - simpl in He. injection He as <-. eauto.
  - rewrite exec_app in He. destruct (exec env evs r0) as [r1|] eqn:E1; [|discriminate].
    simpl in He. destruct (step env ev r1) eqn:Hs; [|discriminate].
    injection He as <-. eapply Hstep; [|apply IH; reflexivity|exact Hs].
    exists a, logs, sel, r0, evs. auto.
Qed.

Lemma launch_inv env a logs selection r0 :
  launch env a logs selection true = Some r0 ->
  exists ign,
    selected_names (subdirs a) selection = Some ign /\
    r0 = with_shown [AskConfirm]
           (begin_run env
              (mkApp (app_config a) (base_dir a) (subdirs a) ign
                     true false true 0 (progress_maximum a))
              (log_message info MsgThreadStarted logs) (base_dir a) ign).
Proof.
  unfold launch, start_embedding.
  repeat case_match; simpl in *; intros; simplify_eq; eauto.
Qed.

(** Case analysis on a step. *)
Ltac step_inv H :=
  match type of H with
  | step _ ?ev ?r = Some _ =>
      destruct ev as [|i| |selection confirm]; simpl in H;
      [ unfold thread_step in H
      | unfold worker_step in H
      | unfold stop_embedding in H
      | destruct (embedding_in_progress (app r)) eqn:Hprog; [|discriminate];
        destruct (start_embedding_rejected (app r) (memory_logs r)
                    selection confirm Hprog) as (Hsa & Hsl & Hst & Hsw & Hsn & _);
        rewrite Hsa, Hsl in H ];
      repeat case_match; simplify_eq
  end.

Lemma step_stop_monotone env ev r r' :
  step env ev r = Some r' ->
  stop_requested (app r) = true -> stop_requested (app r') = true.
Proof.
  intros H Hs. step_inv H; simpl; try assumption; try reflexivity; try congruence.
  all: unfold store_counter; case_match; simpl; assumption.
Qed.

Lemma store_counter_fields o v r :
  app (store_counter o v r) = app r /\
  memory_logs (store_counter o v r) = memory_logs r /\
  at_line (store_counter o v r) = at_line r /\
  all_files (store_counter o v r) = all_files r /\
  total_files (store_counter o v r) = total_files r /\
  futures (store_counter o v r) = futures r /\
  calls (store_counter o v r) = calls r /\
  shown (store_counter o v r) = shown r.
Proof. unfold store_counter. destruct (is_success o); simpl; tauto. Qed.

Ltac norm_store :=
  repeat match goal with
  | |- context [store_counter ?o ?v ?r] =>
      let H := fresh "Hsc" in
      pose proof (store_counter_fields o v r) as H;
      destruct H as (? & ? & ? & ? & ? & ? & ? & ?);
      generalize dependent (store_counter o v r); intros
  end.

Lemma length_replicate' {A} n (x : A) : length (replicate n x) = n.
Proof. induction n; simpl; congruence. Qed.

Lemma inv_shape_step env ev r r' :
  inv_shape r -> step env ev r = Some r' -> inv_shape r'.
Proof.
  intros I H.
  step_inv H; unfold inv_shape in *; simpl in *;
    repeat match goal with
    | E : at_line r = _ |- _ => rewrite E in I; simpl in I
    end;
    norm_store; simpl in *;
    repeat match goal with E : _ = _ |- _ => progress rewrite E in * end.
  all: try (rewrite ?length_replicate', ?length_insert; tauto).
  all: try (destruct (walking (at_line r));
            [ destruct I as (Hf & _); rewrite Hf in *; discriminate
            | rewrite ?length_replicate', ?length_insert; tauto ]).
Qed.

Lemma filter_insert_length (p : task -> bool) ts : forall i t t',
  ts !! i = Some t ->
  (length (List.filter p (<[i := t']> ts)) + (if p t then 1 else 0)
   = length (List.filter p ts) + (if p t' then 1 else 0))%nat.
Proof.
  induction ts as [|x r IH]; intros [|i] t t' Hl; simpl in *; try discriminate.
  - injection Hl as ->. destruct (p t), (p t'); simpl; lia.
  - specialize (IH i t t' Hl). destruct (p x); simpl; lia.
Qed.

Lemma count_done_insert ts i t t' :
  ts !! i = Some t ->
  (count_done (<[i := t']> ts) + (if is_done t then 1 else 0)
   = count_done ts + (if is_done t' then 1 else 0))%nat.
Proof. apply filter_insert_length. Qed.

Lemma count_with_insert k ts i t t' :
  ts !! i = Some t ->
  (count_with k (<[i := t']> ts) + (if done_with k t then 1 else 0)
   = count_with k ts + (if done_with k t' then 1 else 0))%nat.
Proof. apply filter_insert_length. Qed.

Lemma forallb_done_insert ts i t :
  forallb is_done ts = true -> is_done t = true ->
  forallb is_done (<[i := t]> ts) = true.
Proof.
  revert i. induction ts as [|x r IH]; intros [|i]; simpl; auto;
    rewrite !andb_true_iff; intros [? ?] ?; auto.
Qed.

Lemma forallb_done_lookup ts i t :
  forallb is_done ts = true -> ts !! i = Some t -> is_done t = true.
Proof.
  intros H Hl. rewrite forallb_forall in H. apply H.
  apply list_elem_of_In, list_elem_of_lookup. eauto.
Qed.

Lemma count_done_all ts :
  forallb is_done ts = true -> count_done ts = length ts.
Proof.
  unfold count_done. induction ts as [|x r IH]; simpl; [reflexivity|].
  rewrite andb_true_iff. intros [-> Hr]. simpl. auto.
Qed.

Lemma count_done_le ts : (count_done ts <= length ts)%nat.
Proof.
  unfold count_done. induction ts as [|x r IH]; simpl; [lia|].
  destruct (is_done x); simpl; lia.
Qed.

Lemma count_done_replicate n : count_done (replicate n Queued) = 0%nat.
Proof. induction n; simpl; auto. Qed.

Lemma inv_progress_step env ev r r' :
  inv_shape r -> inv_progress r -> step env ev r = Some r' -> inv_progress r'.
Proof.
  intros S I H. unfold inv_progress in *. destruct I as (I1 & I2 & I3).
  step_inv H; unfold inv_shape in S; simpl in *;
    repeat match goal with
    | E : at_line r = _ |- _ => rewrite E in *; simpl in *
    end;
    norm_store; simpl in *;
    repeat match goal with E : _ = _ |- _ => progress rewrite E in * end.
  all: try (split; [|split]; [assumption | intros; discriminate | intros; try discriminate; auto]; fail).
  all: try (split; [|split]; [assumption | assumption | assumption]; fail).
  all: try match goal with
       | Hl : futures ?r0 !! ?i = Some ?t
         |- context [<[?i := ?t']> (futures ?r0)] =>
           pose proof (count_done_insert _ _ _ t' Hl) as Hc; simpl in Hc;
           (split; [lia | split; [assumption|]]);
           intros Ha; specialize (I3 Ha);
           pose proof (forallb_done_lookup _ _ _ I3 Hl); try discriminate;
           apply forallb_done_insert; auto
       end.
  - rewrite count_done_replicate. destruct S as (_ & _ & _ & -> & _).
    split; [lia|]. split; [|discriminate]. intros y [= <-]. reflexivity.
  - rewrite count_done_replicate. destruct S as (_ & _ & _ & -> & _).
    split; [lia|]. split; [|discriminate]. intros y [= <-]. reflexivity.
  - match goal with E : (_ <? _)%nat = true |- _ => apply Nat.ltb_lt in E end.
    rewrite <- (I2 _ eq_refl). split; [lia|]. split; [|discriminate].
    intros y [= <-]. reflexivity.
  - specialize (I3 eq_refl). rewrite (count_done_all _ I3).
    destruct S as (_ & ->). split; [lia|]. split; [discriminate | auto].
Qed.

Lemma count_with_replicate k n : count_with k (replicate n Queued) = 0%nat.
Proof. induction n; simpl; auto. Qed.

Lemma lookup_replicate_Queued n i t :
  replicate n Queued !! i = Some t -> t = Queued.
Proof.
  revert i. induction n as [|n IH]; intros [|i]; simpl; try discriminate.
  - congruence.
  - apply IH.
Qed.

Lemma count_with_insert_eq k ts i t t' :
  ts !! i = Some t -> done_with k t = false ->
  count_with k (<[i := t']> ts)
  = (count_with k ts + (if done_with k t' then 1 else 0))%nat.
Proof.
  intros Hl Hd. pose proof (count_with_insert k ts i t t' Hl) as H.
  rewrite Hd in H. lia.
Qed.

Lemma inv_counters_step env ev r r' :
  inv_counters r -> step env ev r = Some r' -> inv_counters r'.
Proof.
  intros I H. unfold inv_counters in *. destruct I as (I1 & I2 & I3).
  step_inv H; simpl in *.
  all: try (split; [|split]; assumption).
  1,2: rewrite !count_with_replicate; split; [lia|split; [lia|]];
       intros j o v Hj; apply lookup_replicate_Queued in Hj; discriminate.
  all: match goal with
       | Hl : futures ?r0 !! ?i = Some ?t
         |- context [<[?i := ?t']> (futures ?r0)] =>
           pose proof (count_with_insert_eq true _ _ _ t' Hl eq_refl) as Ht;
           pose proof (count_with_insert_eq false _ _ _ t' Hl eq_refl) as Hf;
           pose proof (lookup_lt_Some _ _ _ Hl) as Hlt;
           simpl in Ht, Hf
       end.
  1-3: split; [rewrite Ht; lia | split; [rewrite Hf; lia|]];
       intros j o' v Hj; destruct (decide (i = j)) as [<-|Hne];
       [ rewrite list_lookup_insert_eq in Hj by assumption
       | rewrite list_lookup_insert_ne in Hj by assumption;
         specialize (I3 _ _ _ Hj);
         destruct (is_success o'); rewrite ?Ht, ?Hf; lia ];
       try discriminate.
  - injection Hj as <- <-.
    assert (Hv : (load_counter o r <= count_with (is_success o) (futures r))%nat)
      by (unfold load_counter; destruct (is_success o); assumption).
    destruct (is_success o); rewrite ?Ht, ?Hf; lia.
  - match goal with Hl : futures r !! i = Some (Loaded _ _) |- _ =>
      pose proof (I3 _ _ _ Hl) as Hseen end.
    unfold store_counter.
    destruct (is_success o) eqn:Ho; simpl in *; rewrite Ht, Hf;
      (split; [lia|split; [lia|]]);
      intros j o' v Hj; destruct (decide (i = j)) as [<-|Hne];
      [ rewrite list_lookup_insert_eq in Hj by assumption; discriminate
      | rewrite list_lookup_insert_ne in Hj by assumption
      | rewrite list_lookup_insert_eq in Hj by assumption; discriminate
      | rewrite list_lookup_insert_ne in Hj by assumption ];
      specialize (I3 _ _ _ Hj); destruct (is_success o'); lia.
Qed.

Lemma inv_skips_step env ev r r' :
  inv_skips r -> step env ev r = Some r' -> inv_skips r'.
Proof.
  intros I H j Hj. unfold inv_skips in I.
  step_inv H; simpl in *; norm_store; simpl in *;
    try (eapply I; eassumption); try reflexivity;
    try (apply lookup_replicate_Queued in Hj; discriminate).
  all: try match goal with
       | Hl : futures ?r0 !! ?i = Some _ |- _ =>
           pose proof (lookup_lt_Some _ _ _ Hl) as Hlt;
           destruct (decide (i = j)) as [<-|Hne];
           [ rewrite list_lookup_insert_eq in Hj by assumption
           | rewrite list_lookup_insert_ne in Hj by assumption ];
           try discriminate; try assumption;
           try (eapply I; eassumption)
       end.
  all: try congruence.
  all: try (specialize (I _ Hj); congruence).
Qed.

Lemma inv_flag_step env ev r r' :
  inv_flag r -> step env ev r = Some r' -> inv_flag r'.
Proof.
  intros I H. unfold inv_flag in *.
  step_inv H; simpl in *; norm_store; simpl in *;
    repeat match goal with
    | E : at_line ?r = _ |- _ => rewrite E in *; simpl in *
    end; try assumption; try reflexivity; try congruence.
Qed.

Lemma last_snoc {A} (l : list A) x : last (l ++ [x]) = Some x.
Proof. induction l as [|y [|z l] IH]; simpl in *; auto. Qed.

Ltac rew_all :=
  repeat match goal with E : _ = _ |- _ => progress rewrite E in * end.

Lemma inv_report_step env ev r r' :
  inv_flag r -> inv_report r -> step env ev r = Some r' -> inv_report r'.
Proof.
  intros F I H.
  step_inv H; unfold inv_report, inv_flag in *; simpl in *;
    norm_store; simpl in *;
    repeat match goal with
    | E : at_line ?r = _ |- _ => rewrite E in *; simpl in *
    end; try discriminate; try (intros; discriminate); try assumption.
  all: try (intros _; rew_all; apply last_snoc).
  all: try (rew_all; assumption).
  all: try match goal with
       | Ha : app ?r0 = app ?r1, Hf : shown ?r0 = shown ?r1 |- _ =>
           rewrite Ha, Hf; intros; apply I; congruence
       end.
  all: try (intros Hd; rewrite Hd in F; simpl in F;
            destruct (embedding_in_progress (app r)); simpl in *; congruence).
Qed.

Lemma inv_enum_step env ev r r' :
  inv_enum env r -> step env ev r = Some r' -> inv_enum env r'.
Proof.
  intros I H.
  step_inv H; unfold inv_enum in *; simpl in *; norm_store; simpl in *;
    repeat match goal with
    | E : at_line ?r = _ |- _ => rewrite E in *; simpl in *
    end; try assumption; try (intros; discriminate); try congruence.
  all: try (intros Hs; rewrite <- (I Hs), ?app_nil_r, <- ?app_assoc; reflexivity).
  all: try (rew_all; assumption).
  all: try match goal with
       | Ha : app ?r0 = app ?r1, Hf : all_files ?r0 = all_files ?r1 |- _ =>
           rewrite Ha in *; rewrite Hf in *; apply I; assumption
       end.
Qed.

Lemma inv_shown_step env ev r r' :
  inv_flag r -> inv_shown r -> step env ev r = Some r' -> inv_shown r'.
Proof.
  intros F I H.
  step_inv H; unfold inv_shown, inv_flag in *; simpl in *;
    norm_store; simpl in *;
    repeat match goal with
    | E : at_line ?r = _ |- _ => rewrite E in *; simpl in *
    end; try assumption; try reflexivity; try (intros; reflexivity).
  all: try (intros Hin; apply I in Hin; discriminate).
  all: try match goal with
       | Hf : shown ?r0 = shown ?r1, Hi : In _ (shown ?r0) \/ _ |- _ =>
           rewrite Hf in Hi; apply I; exact Hi
       end.
  all: try (rewrite !in_app_iff; intros [[Hin | Hin] | [Hin | Hin]];
            try (apply I; auto; fail);
            apply Hsn in Hin; destruct Hin; congruence).
Qed.

Lemma Inv_launch env a logs selection r0 :
  launch env a logs selection true = Some r0 -> Inv env r0.
Proof.
  intros (ign & _ & ->)%launch_inv.
  unfold Inv, inv_shape, inv_progress, inv_counters, inv_skips, inv_flag,
    inv_report, inv_shown, inv_enum; simpl.
  repeat split; auto; try discriminate; try (intros; discriminate).
  { intros [[H|[]]|[H|[]]]; discriminate. }
  intros _. unfold list_files. destruct (fs_dir env (base_dir a)); reflexivity.
Qed.

Lemma Inv_step env ev r r' :
  Inv env r -> step env ev r = Some r' -> Inv env r'.
Proof.
  intros (I1 & I2 & I3 & I4 & I5 & I6 & I7 & I8) H. unfold Inv.
  split; [eapply inv_shape_step; eassumption|].
  split; [eapply inv_progress_step; eassumption|].
  split; [eapply inv_counters_step; eassumption|].
  split; [eapply inv_skips_step; eassumption|].
  split; [eapply inv_flag_step; eassumption|].
  split; [eapply inv_report_step; eassumption|].
  split; [eapply inv_shown_step; eassumption|].
  eapply inv_enum_step; eassumption.
Qed.

Lemma reachable_Inv env r : reachable env r -> Inv env r.
Proof.
  revert r. apply reachable_ind.
  - apply Inv_launch.
  - intros ev r r' _. apply Inv_step.
Qed.

Lemma Inv_exec env evs : forall r r',
  Inv env r -> exec env evs r = Some r' -> Inv env r'.
Proof.
  induction evs as [|ev evs IH]; intros r r' I H; simpl in H.
  - congruence.
  - destruct (step env ev r) eqn:Hs; [|discriminate].
    eauto using Inv_step.
Qed.

(** *** Every run can be brought to its end *)

Lemma steps_refl env r : steps env r r.
Proof. exists []. reflexivity. Qed.

Lemma steps_trans env r1 r2 r3 :
  steps env r1 r2 -> steps env r2 r3 -> steps env r1 r3.
Proof.
  intros [e1 H1] [e2 H2]. exists (e1 ++ e2). rewrite exec_app, H1. exact H2.
Qed.

Lemma steps_one env ev r r' : step env ev r = Some r' -> steps env r r'.
Proof. intros H. exists [ev]. simpl. rewrite H. reflexivity. Qed.

Lemma Inv_steps env r r' : Inv env r -> steps env r r' -> Inv env r'.
Proof. intros I [evs H]. eauto using Inv_exec. Qed.

Lemma walk_ends env n : forall r,
  (walk_fuel (at_line r) <= n)%nat ->
  exists r', steps env r r' /\ walking (at_line r') = false.
Proof.
  induction n as [|n IH]; intros r Hn.
  - exists r. split; [apply steps_refl|].
    destruct (at_line r); simpl in *; try reflexivity; lia.
  - destruct (at_line r) as [todo|todo root files| | | | | |] eqn:E;
      try (exists r; split; [apply steps_refl | rewrite E; reflexivity]).
    + destruct todo as [|[[root dirs] files] todo].
      * exists (enter_pool r). split; [|reflexivity].
        apply (steps_one _ EvThread). simpl. unfold thread_step. rewrite E.
        reflexivity.
      * destruct (stop_requested (app r)) eqn:Hs.
        -- exists (enter_pool r). split; [|reflexivity].
           apply (steps_one _ EvThread). simpl. unfold thread_step.
           rewrite E, Hs. reflexivity.
        -- destruct (IH (with_line (PcFiles todo root files) r)) as (r' & Hr' & Hw).
           { simpl in *. lia. }
           exists r'. split; [|exact Hw].
           eapply steps_trans; [|exact Hr'].
           apply (steps_one _ EvThread). simpl. unfold thread_step.
           rewrite E, Hs. reflexivity.
    + destruct files as [|f files].
      * destruct (IH (with_line (PcWalk todo) r)) as (r' & Hr' & Hw).
        { simpl in *. lia. }
        exists r'. split; [|exact Hw].
        eapply steps_trans; [|exact Hr'].
        apply (steps_one _ EvThread). simpl. unfold thread_step.
        rewrite E. reflexivity.
      * destruct (stop_requested (app r)) eqn:Hs.
        -- destruct (IH (with_line (PcWalk todo) r)) as (r' & Hr' & Hw).
           { simpl in *. lia. }
           exists r'. split; [|exact Hw].
           eapply steps_trans; [|exact Hr'].
           apply (steps_one _ EvThread). simpl. unfold thread_step.
           rewrite E, Hs. reflexivity.
        -- destruct (IH (with_line (PcFiles todo root files)
                           (with_files (all_files r ++ [join root f]) r)))
             as (r' & Hr' & Hw).
           { simpl in *. lia. }
           exists r'. split; [|exact Hw].
           eapply steps_trans; [|exact Hr'].
           apply (steps_one _ EvThread). simpl. unfold thread_step.
           rewrite E, Hs. reflexivity.
Qed.

(** A pool thread can always finish the call it runs. *)
Lemma worker_finishes env r i t :
  futures r !! i = Some t -> is_done t = false ->
  length (futures r) = length (all_files r) ->
  exists r' o,
    steps env r r' /\ futures r' = <[i := Done o]> (futures r) /\
    at_line r' = at_line r /\ all_files r' = all_files r /\
    stop_requested (app r') = stop_requested (app r) /\
    progress_value (app r') = progress_value (app r) /\
    (t = InFlight -> exists r1 oc,
        step env (EvWorker i) r = Some r1 /\
        step env (EvWorker i) r1 = Some r' /\ o = Some oc).
Proof.
  intros Hl Hd Hlen.
  assert (Hi : (i < length (all_files r))%nat)
    by (rewrite <- Hlen; eauto using lookup_lt_Some).
  destruct (lookup_lt_is_Some_2 _ _ Hi) as [fpath Hf].
  assert (Hlast : forall r0 o seen,
     futures r0 !! i = Some (Loaded o seen) -> all_files r0 !! i = Some fpath ->
     exists r', step env (EvWorker i) r0 = Some r' /\
       futures r' = <[i := Done (Some o)]> (futures r0) /\
       at_line r' = at_line r0 /\ all_files r' = all_files r0 /\
       stop_requested (app r') = stop_requested (app r0) /\
       progress_value (app r') = progress_value (app r0)).
  { intros r0 o seen H0 H1. eexists. simpl. unfold worker_step.
    rewrite H0, H1. split; [reflexivity|]. simpl.
    unfold store_counter. destruct (is_success o); simpl; auto. }
  assert (Hmid : forall r0,
     futures r0 !! i = Some InFlight -> all_files r0 !! i = Some fpath ->
     exists r1 r' oc, step env (EvWorker i) r0 = Some r1 /\
       step env (EvWorker i) r1 = Some r' /\
       futures r' = <[i := Done (Some oc)]> (futures r0) /\
       at_line r' = at_line r0 /\ all_files r' = all_files r0 /\
       stop_requested (app r') = stop_requested (app r0) /\
       progress_value (app r') = progress_value (app r0)).
  { intros r0 H0 H1.
    destruct (attempt env (app_config (app r0)) fpath) as [oc cs] eqn:Ea.
    set (r1 := with_futures (<[i := Loaded oc (load_counter oc r0)]> (futures r0))
                 (with_calls (calls r0 ++ cs) r0)).
    destruct (Hlast r1 oc (load_counter oc r0)) as (r' & Hs & Hfu & Hrest).
    { simpl. apply list_lookup_insert_eq. eauto using lookup_lt_Some. }
    { exact H1. }
    exists r1, r', oc. split.
    { simpl. unfold worker_step. rewrite H0, H1, Ea. reflexivity. }
    split; [exact Hs|]. split.
    { rewrite Hfu. simpl. apply list_insert_insert_eq. }
    exact Hrest. }
  destruct t as [| |o seen|o]; try discriminate.
  - destruct (stop_requested (app r)) eqn:Hs.
    + eexists _, None. split.
      { apply (steps_one _ (EvWorker i)). simpl. unfold worker_step.
        rewrite Hl, Hf, Hs. reflexivity. }
      simpl. do 5 (split; [first [reflexivity | assumption]|]). intros [=].
    + set (r0 := with_futures (<[i := InFlight]> (futures r)) r).
      destruct (Hmid r0) as (r1 & r' & oc & S1 & S2 & Hfu & Hrest).
      { simpl. apply list_lookup_insert_eq. eauto using lookup_lt_Some. }
      { exact Hf. }
      exists r', (Some oc). split.
      { eapply steps_trans; [apply (steps_one _ (EvWorker i))|].
        - simpl. unfold worker_step. rewrite Hl, Hf, Hs. reflexivity.
        - eapply steps_trans; apply (steps_one _ (EvWorker i)); eassumption. }
      split. { rewrite Hfu. simpl. apply list_insert_insert_eq. }
      destruct Hrest as (? & ? & ? & ?). subst r0. simpl in *.
      do 4 (split; [congruence|]).
      intros [=].
  - destruct (Hmid r Hl Hf) as (r1 & r' & oc & S1 & S2 & Hfu & Hrest).
    exists r', (Some oc). split.
    { eapply steps_trans; apply (steps_one _ (EvWorker i)); eassumption. }
    split; [exact Hfu|].
    destruct Hrest as (? & ? & ? & ?). do 4 (split; [assumption|]).
    intros _. eauto.
  - destruct (Hlast r o seen Hl Hf) as (r' & Hs & Hfu & Hrest).
    exists r', (Some o). split; [apply (steps_one _ (EvWorker i)), Hs|].
    split; [exact Hfu|].
    destruct Hrest as (? & ? & ? & ?). do 4 (split; [assumption|]).
    intros [=].
Qed.

Lemma undone_exists ts :
  forallb is_done ts = false -> exists i t, ts !! i = Some t /\ is_done t = false.
Proof.
  induction ts as [|x r IH]; simpl; [discriminate|].
  destruct (is_done x) eqn:Hx; simpl.
  - intros (i & t & Hl & Hd)%IH. exists (S i), t. auto.
  - intros _. exists 0%nat, x. auto.
Qed.

Lemma pool_drains env n : forall r,
  (length (futures r) - count_done (futures r) <= n)%nat ->
  length (futures r) = length (all_files r) ->
  exists r',
    steps env r r' /\ forallb is_done (futures r') = true /\
    at_line r' = at_line r /\
    length (futures r') = length (futures r) /\
    stop_requested (app r') = stop_requested (app r) /\
    progress_value (app r') = progress_value (app r).
Proof.
  induction n as [|n IH]; intros r Hn Hlen;
    destruct (forallb is_done (futures r)) eqn:Hall;
    try (exists r; split; [apply steps_refl | auto]; fail);
    destruct (undone_exists _ Hall) as (i & t & Hl & Hd);
    destruct (worker_finishes env r i t Hl Hd Hlen)
      as (r1 & o & Hs & Hfu & Hat & Haf & Hst & Hpv & _);
    pose proof (count_done_insert _ _ _ (Done o) Hl) as Hc;
    rewrite Hd in Hc; simpl in Hc;
    pose proof (count_done_le (<[i := Done o]> (futures r))) as Hle;
    rewrite length_insert in Hle.
  - lia.
  - destruct (IH r1) as (r' & Hs' & Hall' & Hat' & Hlen' & Hst' & Hpv').
    { rewrite Hfu, length_insert. lia. }
    { rewrite Hfu, length_insert, Haf. exact Hlen. }
    exists r'. split; [eapply steps_trans; eassumption|].
    rewrite Hfu, length_insert in Hlen'.
    repeat split; congruence.
Qed.

Lemma thread_closes env r :
  after_join (at_line r) = true \/ at_line r = PcJoin ->
  forallb is_done (futures r) = true ->
  exists r', steps env r r' /\ at_line r' = PcDone /\
             stop_requested (app r') = stop_requested (app r).
Proof.
  intros Hp Hall.
  assert (H4 : forall r0, at_line r0 = PcReport ->
            exists r', steps env r0 r' /\ at_line r' = PcDone /\
                       stop_requested (app r') = stop_requested (app r0)).
  { intros r0 E. eexists. split.
    - apply (steps_one _ EvThread). simpl. unfold thread_step. rewrite E.
      reflexivity.
    - split; reflexivity. }
  assert (H3 : forall r0, at_line r0 = PcFinally ->
            exists r', steps env r0 r' /\ at_line r' = PcDone /\
                       stop_requested (app r') = stop_requested (app r0)).
  { intros r0 E.
    destruct (H4 (with_line PcReport (with_app (finish (app r0)) r0)) eq_refl)
      as (r' & Hs & Hd & Hst).
    exists r'. split; [|split; [exact Hd | exact Hst]].
    eapply steps_trans; [|exact Hs].
    apply (steps_one _ EvThread). simpl. unfold thread_step. rewrite E.
    reflexivity. }
  assert (H2 : forall r0, at_line r0 = PcSummary ->
            exists r', steps env r0 r' /\ at_line r' = PcDone /\
                       stop_requested (app r') = stop_requested (app r0)).
  { intros r0 E. destruct (stop_requested (app r0)) eqn:Hst0.
    - destruct (H3 (with_line PcFinally (log warning MsgStoppedByUser r0)) eq_refl)
        as (r' & Hs & Hd & Hst).
      exists r'. split; [|split; [exact Hd | simpl in Hst; congruence]].
      eapply steps_trans; [|exact Hs].
      apply (steps_one _ EvThread). simpl. unfold thread_step.
      rewrite E, Hst0. reflexivity.
    - destruct (H3 (with_line PcFinally
                     (with_app (set_progress (length (all_files r0)) (app r0))
                        (log info (MsgCompleted (success_count r0)
                                                (fail_count r0)) r0))) eq_refl)
        as (r' & Hs & Hd & Hst).
      exists r'. split; [|split; [exact Hd | simpl in Hst; congruence]].
      eapply steps_trans; [|exact Hs].
      apply (steps_one _ EvThread). simpl. unfold thread_step.
      rewrite E, Hst0. reflexivity. }
  destruct (at_line r) eqn:E; simpl in Hp;
    try (destruct Hp; discriminate); auto.
  - destruct (H2 (with_line PcSummary r) eq_refl) as (r' & Hs & Hd & Hst).
    exists r'. split; [|split; [exact Hd | exact Hst]].
    eapply steps_trans; [|exact Hs].
    apply (steps_one _ EvThread). simpl. unfold thread_step.
    rewrite E, Hall. reflexivity.
  - exists r. split; [apply steps_refl | auto].
Qed.

Lemma loop_ends env n : forall r y,
  at_line r = PcPool y -> (length (futures r) - y <= n)%nat ->
  (y <= length (futures r))%nat ->
  forallb is_done (futures r) = true ->
  exists r', steps env r r' /\ at_line r' = PcJoin /\
             futures r' = futures r /\
             stop_requested (app r') = stop_requested (app r).
Proof.
  induction n as [|n IH]; intros r y E Hn Hy Hall;
    pose proof (count_done_all _ Hall) as Hc.
  - exists (with_line PcJoin r). split; [|auto].
    apply (steps_one _ EvThread). simpl. unfold thread_step. rewrite E, Hc.
    replace (y <? length (futures r))%nat with false
      by (symmetry; apply Nat.ltb_ge; lia).
    replace (y =? length (futures r))%nat with true
      by (symmetry; apply Nat.eqb_eq; lia).
    reflexivity.
  - destruct (y <? length (futures r))%nat eqn:Hlt.
    + destruct (stop_requested (app r)) eqn:Hst.
      * exists (with_line PcJoin r). split; [|auto].
        apply (steps_one _ EvThread). simpl. unfold thread_step.
        rewrite E, Hc, Hlt, Hst. reflexivity.
      * apply Nat.ltb_lt in Hlt.
        destruct (IH (with_line (PcPool (S y))
                        (with_app (set_progress (S (progress_value (app r)))
                                                (app r)) r)) (S y))
          as (r' & Hs & Hj & Hfu & Hst'); simpl; auto; try lia.
        exists r'. split; [|simpl in *; split; [exact Hj|split; congruence]].
        eapply steps_trans; [|exact Hs].
        apply (steps_one _ EvThread). simpl. unfold thread_step.
        rewrite E, Hc. apply Nat.ltb_lt in Hlt. rewrite Hlt, Hst. reflexivity.
    + exists (with_line PcJoin r). split; [|auto].
      apply (steps_one _ EvThread). simpl. unfold thread_step.
      rewrite E, Hc, Hlt.
      replace (y =? length (futures r))%nat with true
        by (symmetry; apply Nat.eqb_eq; apply Nat.ltb_ge in Hlt; lia).
      reflexivity.
Qed.

(** From every state that satisfies the invariant, some schedule
    brings the run to its final report. *)
Lemma run_can_end env r :
  Inv env r ->
  exists r', steps env r r' /\ at_line r' = PcDone /\
             (stop_requested (app r) = true -> stop_requested (app r') = true).
Proof.
  intros I.
  destruct (walk_ends env _ r (le_n _)) as (r1 & S1 & W1).
  pose proof (Inv_steps _ _ _ I S1) as I1.
  assert (M1 : stop_requested (app r) = true -> stop_requested (app r1) = true).
  { destruct S1 as [evs He]. clear - He. revert r He.
    induction evs as [|ev evs IH]; intros r He Hs; simpl in He.
    - congruence.
    - destruct (step env ev r) eqn:Hst; [|discriminate].
      eauto using step_stop_monotone. }
  destruct I1 as (Sh & _). unfold inv_shape in Sh. rewrite W1 in Sh.
  destruct Sh as (_ & Hlen).
  destruct (pool_drains env _ r1 (le_n _) Hlen)
    as (r2 & S2 & Hall & Hat & Hlen2 & Hst2 & Hpv2).
  pose proof (Inv_steps _ _ _ I (steps_trans _ _ _ _ S1 S2)) as I2.
  destruct I2 as (_ & (P1 & P2 & _) & _).
  assert (Hend : exists r3, steps env r2 r3 /\ at_line r3 = PcDone /\
                   stop_requested (app r3) = stop_requested (app r2)).
  { destruct (at_line r2) eqn:E2; try (rewrite <- Hat in W1; discriminate).
    - specialize (P2 _ eq_refl). pose proof (count_done_le (futures r2)).
      destruct (loop_ends env _ r2 yielded E2 (le_n _)) as (r3 & S3 & Hj & Hfu & Hst3);
        [lia | exact Hall |].
      destruct (thread_closes env r3) as (r4 & S4 & Hd & Hst4);
        [auto | rewrite Hfu; exact Hall |].
      exists r4. split; [eapply steps_trans; eassumption|]. split; congruence.
    - apply thread_closes; [right; exact E2 | exact Hall].
    - apply thread_closes; [left; rewrite E2; reflexivity | exact Hall].
    - apply thread_closes; [left; rewrite E2; reflexivity | exact Hall].
    - apply thread_closes; [left; rewrite E2; reflexivity | exact Hall].
    - apply thread_closes; [left; rewrite E2; reflexivity | exact Hall]. }
  destruct Hend as (r3 & S3 & Hd & Hst3).
  exists r3. split; [eauto using steps_trans|]. split; [exact Hd|].
  intros Hs. rewrite Hst3, Hst2. auto.
Qed.

(** ** Reading and the upload unit *)

Lemma utf8_decode_replace_total_aux n : forall bs,
  (length bs <= n)%nat -> exists s, utf8_decode Replace bs = Some s.
Proof.
  induction n as [|n IH]; intros bs Hn.
  - destruct bs; [eexists; reflexivity | simpl in Hn; lia].
  - destruct bs as [|b0 r0]; [eexists; reflexivity|].
    assert (H0 : exists s, utf8_decode Replace r0 = Some s)
      by (apply IH; simpl in Hn; lia).
    assert (H1 : forall b1 r1, r0 = b1 :: r1 ->
              exists s, utf8_decode Replace r1 = Some s)
      by (intros b1 r1 ->; apply IH; simpl in Hn; lia).
    assert (H2 : forall b1 b2 r2, r0 = b1 :: b2 :: r2 ->
              exists s, utf8_decode Replace r2 = Some s)
      by (intros b1 b2 r2 ->; apply IH; simpl in Hn; lia).
    assert (H3 : forall b1 b2 b3 r3, r0 = b1 :: b2 :: b3 :: r3 ->
              exists s, utf8_decode Replace r3 = Some s)
      by (intros b1 b2 b3 r3 ->; apply IH; simpl in Hn; lia).
    simpl.
    repeat match goal with
    | |- context [if ?c then _ else _] => destruct c
    | |- context [match ?l with [] => _ | _ :: _ => _ end] =>
        is_var l; destruct l
    end;
    unfold on_error;
    try (eexists; reflexivity);
    repeat match goal with
    | |- exists s, emit _ (utf8_decode Replace ?l) = Some s =>
        let H := fresh in
        assert (H : exists s, utf8_decode Replace l = Some s)
          by (first [ exact H0 | eapply H1; reflexivity
                    | eapply H2; reflexivity | eapply H3; reflexivity
                    | apply IH; simpl in *; lia ]);
        destruct H as [s' ->]; eexists; reflexivity
    end.
Qed.

Lemma utf8_decode_replace_total bs :
  exists s, utf8_decode Replace bs = Some s.
Proof. apply (utf8_decode_replace_total_aux (length bs)). lia. Qed.


Lemma emit_inv c o s :
  emit c o = Some s -> exists s', o = Some s' /\ s = c :: s'.
Proof. destruct o; simpl; intros [= <-]; eauto. Qed.

Lemma on_error_inv m o s :
  on_error m o = Some s ->
  m = Replace /\ exists s', o = Some s' /\ s = REPLACEMENT :: s'.
Proof.
  destruct m; simpl; [discriminate|]. intros H. split; [reflexivity|].
  apply emit_inv, H.
Qed.







Lemma read_text_replace env fpath :
  match fs_read env fpath with
  | OSError e => read_text Replace env fpath = inr e
  | FileBytes bs =>
      exists s, utf8_decode Replace (List.map Byte.to_N bs) = Some s /\
                read_text Replace env fpath = inl (universal_newlines s)
  end.
Proof.
  unfold read_text. destruct (fs_read env fpath) as [bs|e]; [|reflexivity].
  destruct (utf8_decode_replace_total (List.map Byte.to_N bs)) as [s Hs].
  exists s. rewrite Hs. auto.
Qed.

(** What [attempt] does, case by case. *)
Lemma attempt_cases env cfg fpath :
  match read_text Replace env fpath with
  | inr e => attempt env cfg fpath = (Raised e, [IoOpen fpath])
  | inl content =>
      let rq := mkRequest (api_url cfg) (api_token cfg)
                          (build_payload content fpath) in
      exists o,
        attempt env cfg fpath = (o, [IoOpen fpath; IoPost rq]) /\
        match http_post env rq with
        | RequestException e => o = Raised e
        | Responded resp =>
            if (status_code resp =? 200)%Z then o = Uploaded
            else o = HttpFailed (status_code resp) (text resp)
        end
  end.
Proof.
  unfold attempt. destruct (read_text Replace env fpath) as [content|e];
    [|reflexivity].
  simpl. destruct (http_post env _) as [resp|e]; [|eauto].
  destruct (status_code resp =? 200)%Z; eauto.
Qed.

Lemma attempt_posts env cfg fpath :
  posts (snd (attempt env cfg fpath))
  = match read_text Replace env fpath with inl _ => 1%nat | inr _ => 0%nat end.
Proof.
  pose proof (attempt_cases env cfg fpath) as H.
  destruct (read_text Replace env fpath); [destruct H as (o & -> & _)|rewrite H];
    reflexivity.
Qed.

Lemma rfind_none c s : ~ In c s -> rfind c s = (-1)%Z.
Proof.
  induction s as [|x r IH]; simpl; [reflexivity|]. intros H.
  rewrite IH by tauto. simpl.
  destruct (N.eqb_spec x c); [exfalso; auto | reflexivity].
Qed.

Lemma rfind_last c a n :
  ~ In c n -> rfind c (a ++ c :: n) = Z.of_nat (length a).
Proof.
  intros Hn. induction a as [|x a IH]; simpl.
  - rewrite (rfind_none _ _ Hn). simpl. rewrite N.eqb_refl. reflexivity.
  - rewrite IH. destruct (Z.leb_spec 0 (Z.of_nat (length a))); lia.
Qed.

Lemma drop_app_length {A} (a b : list A) : drop (length a) (a ++ b) = b.
Proof. induction a; simpl; auto. Qed.

Lemma basename_join root name :
  valid_name name = true -> basename (join root name) = name.
Proof.
  intros Hv. rewrite (join_valid _ _ Hv).
  pose proof Hv as [_ Hs]%valid_name_spec.
  unfold basename, glue, open_path.
  destruct root as [|x r] using rev_ind.
  - simpl. rewrite (rfind_none _ _ Hs). reflexivity.
  - clear IHr. rewrite endswith_app.
    assert (Ht : truthy (r ++ [x]) = true) by (destruct r; reflexivity).
    rewrite Ht. simpl. destruct (N.eqb_spec x sep) as [->|Hx]; simpl.
    + rewrite <- app_assoc. simpl. rewrite (rfind_last _ _ _ Hs).
      replace (Z.to_nat (Z.of_nat (length r) + 1)) with (length (r ++ [sep]))
        by (rewrite length_app; simpl; lia).
      replace (r ++ sep :: name) with ((r ++ [sep]) ++ name)
        by (rewrite <- app_assoc; reflexivity).
      apply drop_app_length.
    + rewrite (rfind_last _ _ _ Hs).
      replace (Z.to_nat (Z.of_nat (length (r ++ [x])) + 1))
        with (length ((r ++ [x]) ++ [sep]))
        by (rewrite !length_app; simpl; lia).
      replace ((r ++ [x]) ++ sep :: name) with (((r ++ [x]) ++ [sep]) ++ name)
        by (rewrite <- !app_assoc; reflexivity).
      apply drop_app_length.
Qed.

(** *** The CLI loop *)

Lemma cli_loop env cfg files : forall st,
  let st' := fold_left (cli_upload env cfg) files st in
  (cli_success st' + cli_fail st'
   = cli_success st + cli_fail st + length files)%nat /\
  cli_calls st'
  = cli_calls st ++ flat_map (fun f => snd (attempt env cfg f)) files /\
  cli_logs st'
  = cli_logs st
    ++ List.map (fun f => outcome_line f (fst (attempt env cfg f))) files.
Proof.
  induction files as [|f files IH]; intros st; simpl.
  - rewrite !app_nil_r. repeat split; lia.
  - destruct (IH (cli_upload env cfg st f)) as (H1 & H2 & H3).
    rewrite H1, H2, H3. unfold cli_upload, log_message.
    destruct (attempt env cfg f) as [o cs]; simpl.
    rewrite <- !app_assoc. simpl.
    repeat split; try reflexivity.
    + destruct (is_success o); lia.
    + destruct (outcome_line f o). reflexivity.
Qed.

(** ** Consequences for a run *)


Lemma step_not_started env ev r r' k :
  step env ev r = Some r' -> stop_requested (app r) = true ->
  not_started (futures r !! k) -> not_started (futures r' !! k).
Proof.
  intros H Hs Hn. unfold not_started in *.
  step_inv H; simpl in *; norm_store; simpl in *; try assumption;
    try congruence.
  all: try (destruct (replicate _ Queued !! k) as [t|] eqn:Hl;
            [apply lookup_replicate_Queued in Hl; subst; auto | auto]).
  all: try match goal with
       | Hl : futures ?r0 !! ?j = Some _ |- _ =>
           pose proof (lookup_lt_Some _ _ _ Hl) as Hlt;
           destruct (decide (j = k)) as [<-|Hne];
           [ rewrite list_lookup_insert_eq by assumption
           | rewrite list_lookup_insert_ne by assumption; assumption ];
           try (right; right; reflexivity);
           destruct Hn as [Hn|[Hn|Hn]]; congruence
       end.
Qed.



Lemma step_total_fixed env ev r r' n :
  inv_shape r -> step env ev r = Some r' -> total_files r = Some n ->
  total_files r' = Some n /\ all_files r' = all_files r.
Proof.
  intros S H Ht.
  assert (W : walking (at_line r) = false).
  { unfold inv_shape in S. destruct (walking (at_line r)); [|reflexivity].
    destruct S as (_ & S & _). congruence. }
  step_inv H; simpl in *; norm_store; simpl in *;
    repeat match goal with
    | E : at_line ?r = _ |- _ => rewrite E in *; simpl in *
    end; try discriminate; try (split; congruence).
Qed.

Lemma run_of_reachable env evs r :
  Ex.run_of env evs = Some r -> reachable env r.
Proof.
  unfold Ex.run_of. intros E.
  destruct (launch env Ex.gui [] [] true) as [r0|] eqn:El; [|discriminate].
  exists Ex.gui, [], [], r0, evs. split; assumption.
Qed.

(** * The claims *)



(** C2 (the code loses an update). In [embed_files_threaded] two pool
    threads run [success_count += 1] without a lock.  With two files,
    an endpoint that answers 200 and no stop requested, the schedule in
    which both threads read the counter before either writes it ends
    with both uploads done, the message "Embedding completed" shown,
    and the summary [Success=1, Fail=0] for a total of 2. *)
Theorem threaded_counters_lose_an_update :
  match Ex.run_of Ex.env_ok
          (Ex.walk_all ++ Ex.uploads_interleaved ++ Ex.finish_thread) with
  | Some r =>
      at_line r = PcDone /\ stop_requested (app r) = false /\
      total_files r = Some 2%nat /\
      futures r = [Done (Some Uploaded); Done (Some Uploaded)] /\
      success_count r = 1%nat /\ fail_count r = 0%nat /\
      last (memory_logs r) = Some (info, MsgCompleted 1 0) /\
      last (shown r) = Some InfoDone
  | None => False
  end.
Proof. vm_compute. repeat split. Qed.

(** The sequential run counts every enumerated file once: at the end
    of [embed_files_cli], success_count + fail_count is the number of
    enumerated files, and the last log line reports these counts. *)
Theorem embed_files_cli_counts_every_file env base ignored cfg logs :
  let run := embed_files_cli env base ignored cfg logs in
  cli_all_files run = list_files env ignored base /\
  (cli_success (cli_final run) + cli_fail (cli_final run)
   = length (cli_all_files run))%nat /\
  last (cli_logs (cli_final run))
  = Some (info, MsgCompleted (cli_success (cli_final run))
                             (cli_fail (cli_final run))).
Proof.
  simpl. split; [reflexivity|].
  destruct (cli_loop env cfg (list_files env ignored base)
              (mkCli 0 0
                 (log_message info (MsgFound (length (list_files env ignored base)))
                    (log_message info (MsgStarting base ignored) logs)) []))
    as (H1 & _ & _).
  simpl in H1. split; [exact H1|].
  unfold log_message at 1. apply last_snoc.
Qed.

(** The same two uploads, one after the other, are both counted. *)
Theorem threaded_counters_in_turn :
  match Ex.run_of Ex.env_ok
          (Ex.walk_all ++ Ex.uploads_in_turn ++ Ex.finish_thread) with
  | Some r =>
      at_line r = PcDone /\ total_files r = Some 2%nat /\
      success_count r = 2%nat /\ fail_count r = 0%nat /\
      last (memory_logs r) = Some (info, MsgCompleted 2 0)
  | None => False
  end.
Proof. vm_compute. repeat split. Qed.

(** C3 (amended). The upload unit classifies every file: status 200 is
    a success; another status is a failure logged with the status code
    and the response text; an exception of the read or of the request
    is a failure logged with its description.  It makes at most one
    HTTP request per file: exactly one when the file was read, none
    when reading it raised.  A failure does not end the run: the CLI
    loop attempts every enumerated file, each on its own, and counts
    and logs each of them once. *)
Theorem upload_classifies_every_file env cfg fpath :
  match read_text Replace env fpath with
  | inr e =>
      attempt env cfg fpath = (Raised e, [IoOpen fpath]) /\
      posts (snd (attempt env cfg fpath)) = 0%nat
  | inl content =>
      let rq := mkRequest (api_url cfg) (api_token cfg)
                          (build_payload content fpath) in
      posts (snd (attempt env cfg fpath)) = 1%nat /\
      exists o,
        attempt env cfg fpath = (o, [IoOpen fpath; IoPost rq]) /\
        match http_post env rq with
        | RequestException e => o = Raised e
        | Responded resp =>
            if (status_code resp =? 200)%Z then o = Uploaded
            else o = HttpFailed (status_code resp) (text resp)
        end
  end /\
  outcome_line fpath Uploaded = (info, MsgUploaded fpath) /\
  (forall st body,
     outcome_line fpath (HttpFailed st body) = (error, MsgFailed fpath st body)) /\
  (forall e, outcome_line fpath (Raised e) = (error, MsgException fpath e)) /\
  (forall base ignored logs,
     let run := embed_files_cli env base ignored cfg logs in
     cli_calls (cli_final run)
     = flat_map (fun f => snd (attempt env cfg f)) (cli_all_files run) /\
     cli_logs (cli_final run)
     = logs
       ++ [(info, MsgStarting base ignored);
           (info, MsgFound (length (cli_all_files run)))]
       ++ List.map (fun f => outcome_line f (fst (attempt env cfg f)))
                   (cli_all_files run)
       ++ [(info, MsgCompleted (cli_success (cli_final run))
                               (cli_fail (cli_final run)))] /\
     (cli_success (cli_final run) + cli_fail (cli_final run)
      = length (cli_all_files run))%nat).
Proof.
  split.
  { pose proof (attempt_cases env cfg fpath) as H.
    pose proof (attempt_posts env cfg fpath) as Hp.
    destruct (read_text Replace env fpath); auto. }
  split; [reflexivity|]. split; [reflexivity|]. split; [reflexivity|].
  intros base ignored logs. simpl.
  destruct (cli_loop env cfg (list_files env ignored base)
              (mkCli 0 0
                 (log_message info (MsgFound (length (list_files env ignored base)))
                    (log_message info (MsgStarting base ignored) logs)) []))
    as (H1 & H2 & H3).
  simpl in H1, H2, H3. split; [exact H2|]. split; [|exact H1].
  rewrite H3. unfold log_message. rewrite <- !app_assoc. reflexivity.
Qed.

(** C3, as stated, fails: a file that cannot be opened is counted as a
    failure without any HTTP request. *)
Lemma unreadable_file_gets_no_http_attempt :
  attempt Ex.env_unreadable Ex.cfg (lit "/data/a.txt")
  = (Raised (lit "[Errno 2] No such file or directory"),
     [IoOpen (lit "/data/a.txt")]) /\
  posts (snd (attempt Ex.env_unreadable Ex.cfg (lit "/data/a.txt"))) = 0%nat.
Proof. split; reflexivity. Qed.


(** A file that is not UTF-8 is read all the same: the ill-formed
    bytes come out as U+FFFD where strict decoding raises. *)
Example lossy_read_of_ill_formed_bytes :
  utf8_decode Strict [0x41; 0xFF; 0xE2; 0x82; 0x42] = None /\
  utf8_decode Replace [0x41; 0xFF; 0xE2; 0x82; 0x42]
  = Some [0x41; REPLACEMENT; REPLACEMENT; 0x42].
Proof. split; reflexivity. Qed.

(** C5 (amended). A call of [upload_file] that the stop flag does not
    turn away writes shared state: it adds one to exactly one of the
    two counters shared by all calls and appends one line to the global
    log.  It writes nothing else: the application object (stop flag,
    in-progress flag, configuration, progress bar), the file list, the
    total and the futures are as before.  A call made after a stop
    request changes nothing.  The three steps a pool thread takes for a
    queued file amount to this call. *)
Theorem upload_file_writes_counter_and_log_only env fpath r :
  let r' := upload_file env fpath r in
  let o := fst (attempt env (app_config (app r)) fpath) in
  app r' = app r /\ at_line r' = at_line r /\ all_files r' = all_files r /\
  total_files r' = total_files r /\ futures r' = futures r /\
  shown r' = shown r /\
  (stop_requested (app r) = true -> r' = r) /\
  (stop_requested (app r) = false ->
     memory_logs r' = memory_logs r ++ [outcome_line fpath o] /\
     calls r' = calls r ++ snd (attempt env (app_config (app r)) fpath) /\
     success_count r'
     = (if is_success o then S (success_count r) else success_count r) /\
     fail_count r'
     = (if is_success o then fail_count r else S (fail_count r)) /\
     forall i, futures r !! i = Some Queued -> all_files r !! i = Some fpath ->
       exec env [EvWorker i; EvWorker i; EvWorker i] r
       = Some (with_futures (<[i := Done (Some o)]> (futures r)) r')).
Proof.
  unfold upload_file. destruct (stop_requested (app r)) eqn:Hs.
  - simpl. do 6 (split; [reflexivity|]). split; [reflexivity | discriminate].
  - destruct (attempt env (app_config (app r)) fpath) as [o cs] eqn:Ha.
    simpl. unfold store_counter, load_counter, log, log_message.
    destruct (outcome_line fpath o) as [lv msg] eqn:Hl.
    destruct (is_success o) eqn:Ho; simpl;
      (do 6 (split; [reflexivity|])); (split; [discriminate|]); intros _;
      (do 4 (split; [reflexivity|])); intros i Hq Hf;
      unfold worker_step; rewrite Hq, Hf, Hs; simpl;
      unfold worker_step; simpl;
      rewrite (list_lookup_insert_eq (futures r) i InFlight)
        by (eauto using lookup_lt_Some);
      rewrite Hf, Ha; simpl; unfold worker_step; simpl;
      rewrite list_lookup_insert_eq
        by (rewrite length_insert; eauto using lookup_lt_Some);
      rewrite Hf; simpl;
      unfold store_counter, load_counter, log, log_message; rewrite Ho, Hl;
      simpl; rewrite !list_insert_insert_eq; reflexivity.
Qed.

(** C5, as stated, fails: one call changes the shared counter and the
    global log. *)
Lemma upload_file_changes_shared_state :
  match Ex.run_of Ex.env_ok Ex.walk_all with
  | Some r =>
      let r' := upload_file Ex.env_ok (lit "/data/a.txt") r in
      success_count r = 0%nat /\ success_count r' = 1%nat /\
      length (memory_logs r') = S (length (memory_logs r))
  | None => False
  end.
Proof. vm_compute. repeat split. Qed.






(** C8. While a run is in progress, pressing "Start Embedding" is
    rejected with a warning.  The handler returns the application
    object and the log as they were and starts no thread; in the run,
    the only trace of the press is the warning shown: the application
    object, the log, the position of the thread, the file list, the
    total, the counters, the futures and the calls made are as
    before. *)
Theorem second_start_is_rejected a logs selection confirm :
  embedding_in_progress a = true ->
  let s := start_embedding a logs selection confirm in
  st_app s = a /\ st_logs s = logs /\ st_thread s = None /\
  (exists w, In w [WarnNoConfig; WarnNoFolder; WarnInProgress] /\
             In w (st_shown s)) /\
  (is_valid (app_config a) = true -> truthy (base_dir a) = true ->
   st_shown s = [WarnInProgress]) /\
  (forall env, launch env a logs selection confirm = None) /\
  (forall env r, app r = a -> memory_logs r = logs ->
     exists r',
       step env (EvStart selection confirm) r = Some r' /\
       r' = with_shown (shown r ++ st_shown s) r /\
       app r' = app r /\ memory_logs r' = memory_logs r /\
       at_line r' = at_line r /\ all_files r' = all_files r /\
       total_files r' = total_files r /\
       success_count r' = success_count r /\
       fail_count r' = fail_count r /\
       futures r' = futures r /\ calls r' = calls r).
Proof.
  intros Hp s.
  destruct (start_embedding_rejected a logs selection confirm Hp)
    as (Ha & Hl & Ht & Hw & _ & Hv).
  fold s in Ha, Hl, Ht, Hw, Hv.
  do 5 (split; [assumption|]). split.
  - intros env. unfold launch. fold s. rewrite Ht.
    destruct confirm; reflexivity.
  - intros env r <- <-. eexists. split.
    + simpl. rewrite Hp. fold s. rewrite Ha, Hl. reflexivity.
    + destruct r; simpl. repeat split; reflexivity.
Qed.

Lemma second_start_is_rejected_witness :
  exists r,
    Ex.run_of Ex.env_ok Ex.walk_all = Some r /\
    embedding_in_progress (app r) = true /\
    step Ex.env_ok (EvStart [] true) r
    = Some (with_shown (shown r ++ [WarnInProgress]) r) /\
    launch Ex.env_ok (app r) (memory_logs r) [] true = None.
Proof.
  assert (E : exists r,
             Ex.run_of Ex.env_ok Ex.walk_all = Some r /\
             embedding_in_progress (app r) = true /\
             is_valid (app_config (app r)) = true /\
             truthy (base_dir (app r)) = true)
    by (vm_compute; eexists; repeat split).
  destruct E as (r & E & Hp & Hv & Hb).
  exists r. split; [exact E|]. split; [exact Hp|].
  destruct (second_start_is_rejected (app r) (memory_logs r) [] true Hp)
    as (_ & _ & _ & _ & Hw & Hl & Hr).
  destruct (Hr Ex.env_ok r eq_refl eq_refl) as (r' & Hs & -> & _).
  rewrite (Hw Hv Hb) in Hs. split; [exact Hs | apply Hl].
Defined.

(** C9. In every threaded run: while the total is not yet fixed, no
    file has been submitted, read or posted and the progress value is
    zero; once fixed, the total is the length of the file list, there
    is one future per file, and no later step changes the total or the
    list; and when the summary has been logged or the final dialog
    shown, every upload has returned, with an outcome or, after a stop
    request only, turned away at the stop check. *)
Theorem total_before_uploads_and_summary_after env r :
  reachable env r ->
  (total_files r = None ->
     futures r = [] /\ calls r = [] /\ progress_value (app r) = 0%nat) /\
  (forall n, total_files r = Some n ->
     n = length (all_files r) /\ length (futures r) = n /\
     forall evs r', exec env evs r = Some r' ->
       total_files r' = Some n /\ all_files r' = all_files r) /\
  (after_join (at_line r) = true \/
   In InfoDone (shown r) \/ In WarnStopped (shown r) ->
   forall i t, futures r !! i = Some t ->
     (exists o, t = Done (Some o)) \/
     (t = Done None /\ stop_requested (app r) = true)).
Proof.
  intros Hr.
  pose proof (reachable_Inv _ _ Hr) as I.
  destruct I as (S & (_ & _ & P3) & _ & K & _ & _ & Sh & _).
  split; [|split].
  - intros Hn. unfold inv_shape in S. destruct (walking (at_line r)).
    + tauto.
    + destruct S as (S & _). congruence.
  - intros n Hn. unfold inv_shape in S.
    destruct (walking (at_line r)) eqn:W.
    + destruct S as (_ & S & _). congruence.
    + destruct S as (S1 & S2). rewrite S1 in Hn. injection Hn as <-.
      split; [reflexivity|]. split; [exact S2|].
      intros evs. revert r Hr W S1 S2 P3 K Sh.
      induction evs as [|ev evs IH]; intros r Hr W S1 S2 P3 K Sh r' He;
        simpl in He.
      * injection He as <-. auto.
      * destruct (step env ev r) as [r1|] eqn:Hs; [|discriminate].
        pose proof (reachable_step _ _ _ _ Hr Hs) as Hr1.
        pose proof (reachable_Inv _ _ Hr) as (S & _).
        destruct (step_total_fixed _ _ _ _ _ S Hs S1) as (T1 & F1).
        pose proof (reachable_Inv _ _ Hr1)
          as (S' & (_ & _ & P3') & _ & K' & _ & _ & Sh' & _).
        unfold inv_shape in S'.
        destruct (walking (at_line r1)) eqn:W1.
        { destruct S' as (_ & S' & _). congruence. }
        destruct S' as (S1' & S2').
        destruct (IH r1 Hr1 W1 S1' S2' P3' K' Sh' r' He) as (T & F).
        rewrite F1 in T, F. auto.
  - intros Hend i t Hi.
    assert (Ha : after_join (at_line r) = true).
    { destruct Hend as [Ha|Hd]; [exact Ha|]. rewrite (Sh Hd). reflexivity. }
    pose proof (forallb_done_lookup _ _ _ (P3 Ha) Hi) as Hd.
    destruct t as [| | |[o|]]; try discriminate; eauto.
Qed.

Lemma total_before_uploads_and_summary_after_witness :
  exists r,
    Ex.run_of Ex.env_ok
      (Ex.walk_all ++ Ex.uploads_in_turn ++ Ex.finish_thread) = Some r /\
    reachable Ex.env_ok r /\
    total_files r = Some 2%nat /\ length (futures r) = 2%nat /\
    In InfoDone (shown r) /\
    forall i t, futures r !! i = Some t ->
      (exists o, t = Done (Some o)) \/
      (t = Done None /\ stop_requested (app r) = true).
Proof.
  assert (E : exists r,
             Ex.run_of Ex.env_ok
               (Ex.walk_all ++ Ex.uploads_in_turn ++ Ex.finish_thread)
             = Some r /\
             total_files r = Some 2%nat /\ In InfoDone (shown r))
    by (vm_compute; eexists; repeat split; auto).
  destruct E as (r & E & Ht & Hd).
  exists r. split; [exact E|].
  pose proof (run_of_reachable _ _ _ E) as Hr. split; [exact Hr|].
  destruct (total_before_uploads_and_summary_after Ex.env_ok r Hr)
    as (_ & H2 & H3).
  split; [exact Ht|]. split; [exact (proj1 (proj2 (H2 _ Ht)))|].
  split; [exact Hd|]. apply H3. right. left. exact Hd.
Defined.

(** ** Further properties of the runs *)

(** From every state of a threaded run some schedule leads to the
    final dialog: the run can always finish, whether or not a stop was
    requested. *)
Theorem every_run_can_finish env r :
  reachable env r ->
  exists r', steps env r r' /\ at_line r' = PcDone /\
             embedding_in_progress (app r') = false /\
             forallb is_done (futures r') = true.
Proof.
  intros Hr. pose proof (reachable_Inv _ _ Hr) as I.
  destruct (run_can_end env r I) as (r' & S' & Hd & _).
  exists r'. split; [exact S'|]. split; [exact Hd|].
  pose proof (Inv_steps _ _ _ I S') as (_ & (_ & _ & P3) & _ & _ & F & _).
  unfold inv_flag in F. rewrite Hd in F, P3. split; [exact F | exact (P3 eq_refl)].
Qed.

Lemma every_run_can_finish_witness :
  exists r r',
    Ex.run_of Ex.env_ok Ex.stop_during_first_upload = Some r /\
    reachable Ex.env_ok r /\
    steps Ex.env_ok r r' /\ at_line r' = PcDone.
Proof.
  assert (E : exists r,
             Ex.run_of Ex.env_ok Ex.stop_during_first_upload = Some r)
    by (vm_compute; eexists; reflexivity).
  destruct E as (r & E).
  pose proof (run_of_reachable _ _ _ E) as Hr.
  destruct (every_run_can_finish Ex.env_ok r Hr) as (r' & S' & Hd & _).
  exists r, r'. auto.
Defined.

(** In a threaded run that ended without a stop request, every
    enumerated file was uploaded: there is one future per file and each
    returned with an outcome. *)
Theorem finished_run_attempted_every_file env r :
  reachable env r -> at_line r = PcDone ->
  stop_requested (app r) = false ->
  total_files r = Some (length (all_files r)) /\
  length (futures r) = length (all_files r) /\
  last (shown r) = Some InfoDone /\
  forall i t, futures r !! i = Some t -> exists o, t = Done (Some o).
Proof.
  intros Hr Hd Hs.
  destruct (reachable_Inv _ _ Hr)
    as (S & (_ & _ & P3) & _ & K & _ & R & _).
  unfold inv_shape in S. rewrite Hd in S, P3. simpl in S.
  destruct S as (S1 & S2). split; [exact S1|]. split; [exact S2|].
  split; [rewrite (R Hd), Hs; reflexivity|].
  intros i t Hi.
  pose proof (forallb_done_lookup _ _ _ (P3 eq_refl) Hi) as Hdone.
  destruct t as [| | |[o|]]; try discriminate; [eauto|].
  specialize (K _ Hi). congruence.
Qed.

Lemma finished_run_attempted_every_file_witness :
  exists r,
    Ex.run_of Ex.env_ok
      (Ex.walk_all ++ Ex.uploads_in_turn ++ Ex.finish_thread) = Some r /\
    at_line r = PcDone /\ stop_requested (app r) = false /\
    length (futures r) = length (all_files r) /\
    last (shown r) = Some InfoDone.
Proof.
  assert (E : exists r,
             Ex.run_of Ex.env_ok
               (Ex.walk_all ++ Ex.uploads_in_turn ++ Ex.finish_thread)
             = Some r /\
             at_line r = PcDone /\ stop_requested (app r) = false)
    by (vm_compute; eexists; repeat split).
  destruct E as (r & E & Hd & Hs).
  exists r. split; [exact E|]. split; [exact Hd|]. split; [exact Hs|].
  destruct (finished_run_attempted_every_file Ex.env_ok r
              (run_of_reachable _ _ _ E) Hd Hs) as (_ & H2 & H3 & _).
  split; assumption.
Defined.

(** * Part III: further properties of the code *)

(** ** More on the enumeration *)

Lemma kept_antimono (ignored ignored' : list str) p :
  (forall n, In n ignored -> In n ignored') ->
  under_ignored ignored p = true -> under_ignored ignored' p = true.
Proof.
  intros Hsub. unfold under_ignored. rewrite !existsb_exists.
  intros (a & Ha & Hm). exists a. split; [exact Ha|].
  apply mem_In. apply Hsub. apply mem_In. exact Hm.
Qed.

Lemma filter_sublist {A} (p q : A -> bool) (l : list A) :
  (forall x, q x = true -> p x = true) ->
  sublist (List.filter q l) (List.filter p l).
Proof.
  intros Hpq. induction l as [|x l IH]; simpl; [constructor|].
  destruct (q x) eqn:Hq.
  - rewrite (Hpq x Hq). constructor. exact IH.
  - destruct (p x); [constructor|]; exact IH.
Qed.

Lemma map_sublist {A B} (f : A -> B) (l k : list A) :
  sublist l k -> sublist (List.map f l) (List.map f k).
Proof. induction 1; simpl; constructor; assumption. Qed.

(** Ignoring more names can only remove paths: the enumeration under
    a larger ignored set is a subsequence, in the same order, of the
    enumeration under a smaller one. *)
Theorem ignoring_more_enumerates_less (ignored ignored' : list str)
  (base : str) (d : Dir) :
  (forall n, In n ignored -> In n ignored') ->
  sublist (enumerate ignored' base d) (enumerate ignored base d).
Proof.
  intros Hsub. rewrite !enumerate_refines. apply map_sublist, filter_sublist.
  intros p Hp. rewrite negb_true_iff in *.
  destruct (under_ignored ignored p) eqn:E; [|reflexivity].
  rewrite (kept_antimono _ _ _ Hsub E) in Hp. discriminate.
Qed.

Lemma ignoring_more_enumerates_less_witness :
  sublist (enumerate Ex.ignored (lit "/data") Ex.tree)
          (enumerate [] (lit "/data") Ex.tree).
Proof.
  apply ignoring_more_enumerates_less. intros n [].
Defined.

Lemma filter_all {A} (p : A -> bool) (l : list A) :
  (forall x, In x l -> p x = true) -> List.filter p l = l.
Proof.
  induction l as [|x l IH]; simpl; intros H; [reflexivity|].
  rewrite (H x) by auto. f_equal. apply IH. auto.
Qed.

(** With nothing ignored the loop enumerates every file of the tree;
    and whatever is ignored, every file directly in the root is
    enumerated, as the root joined with its name. *)
Theorem root_files_are_always_enumerated (ignored : list str) (base : str)
  (d : Dir) :
  enumerate [] base d = List.map (path_of base) (tree_files d) /\
  (forall f, In f (match d with MkDir files _ => files end) ->
             In (join base f) (enumerate ignored base d)) /\
  (length (enumerate ignored base d) <= length (tree_files d))%nat.
Proof.
  split; [|split].
  - rewrite enumerate_refines. f_equal. apply filter_all.
    intros p _. unfold under_ignored.
    induction (fst p) as [|a l IH]; simpl; auto.
  - destruct d as [files subs]. intros f Hf. rewrite enumerate_unfold.
    apply in_or_app. left. apply in_map, Hf.
  - rewrite enumerate_refines, length_map. apply filter_length_le.
Qed.


(** Every enumerated path is [base_dir] followed by at least one more
    character, and its base name is the name of the file it stands
    for: the loop never yields a path that does not extend the root. *)
Theorem enumerated_paths_extend_the_root (ignored : list str) (base : str)
  (d : Dir) :
  wf_dir d = true ->
  forall s, In s (enumerate ignored base d) ->
    exists p rest,
      In p (tree_files d) /\ s = base ++ rest /\ rest <> [] /\
      basename s = snd p.
Proof.
  intros Hwf s Hs. apply enumerate_In in Hs as (p & Hp & _ & ->).
  pose proof (tree_files_valid d Hwf p Hp) as Hv.
  assert (Hn : valid_name (snd p) = true).
  { unfold all_valid, comps in Hv. apply Forall_app in Hv as [_ Hv].
    inversion Hv; assumption. }
  exists p. rewrite path_of_comps.
  destruct (comps p) as [|c cs] eqn:Ec;
    [destruct p as [[|? ?] ?]; discriminate|].
  rewrite (fold_join_cons base c cs Hv).
  exists (glue base ++ c ++ tail_of cs). split; [exact Hp|].
  split; [reflexivity|]. split.
  - inversion Hv as [|? ? Hc _]; subst.
    apply valid_name_spec in Hc as [Hc _].
    destruct (glue base); [|discriminate]. simpl.
    destruct c; [congruence | discriminate].
  - rewrite <- (fold_join_cons base c cs Hv), <- Ec, <- path_of_comps.
    unfold path_of. apply basename_join, Hn.
Qed.

Lemma enumerated_paths_extend_the_root_witness :
  wf_dir Ex.tree = true /\
  exists p rest,
    In p (tree_files Ex.tree) /\
    lit "/data/sub/c.txt" = lit "/data" ++ rest /\ rest <> [] /\
    basename (lit "/data/sub/c.txt") = snd p.
Proof.
  split; [reflexivity|].
  apply (enumerated_paths_extend_the_root Ex.ignored (lit "/data") Ex.tree
           eq_refl (lit "/data/sub/c.txt")).
  vm_compute. auto.
Defined.

(** ** [os.path.basename] *)

Lemma rfind_cases c s :
  (rfind c s = (-1)%Z /\ ~ In c s) \/
  (exists a n, s = a ++ c :: n /\ ~ In c n /\
               rfind c s = Z.of_nat (length a)).
Proof.
  induction s as [|x r IH]; simpl.
  - left. split; [reflexivity | tauto].
  - destruct IH as [[Hr Hn] | (a & n & -> & Hn & Hr)].
    + rewrite Hr. simpl. destruct (N.eqb_spec x c) as [->|Hx].
      * right. exists [], r. auto.
      * left. split; [reflexivity|]. intros [?|?]; auto.
    + right. exists (x :: a), n. split; [reflexivity|]. split; [exact Hn|].
      rewrite Hr. destruct (Z.leb_spec 0 (Z.of_nat (length a))); simpl; lia.
Qed.

Lemma basename_last_component (p : str) :
  ~ In sep (basename p) /\
  (exists dir, p = dir ++ basename p /\
               (dir = [] \/ endswith sep dir = true)) /\
  (endswith sep p = true -> basename p = []).
Proof.
  unfold basename.
  destruct (rfind_cases sep p) as [[Hr Hn] | (a & n & -> & Hn & Hr)].
  - rewrite Hr. simpl. split; [exact Hn|]. split.
    + exists []. auto.
    + unfold endswith. intros He. exfalso. apply Hn.
      apply in_rev. destruct (rev p) as [|x r]; [discriminate|].
      simpl in He. apply N.eqb_eq in He. subst. left. reflexivity.
  - rewrite Hr.
    replace (Z.to_nat (Z.of_nat (length a) + 1)) with (length (a ++ [sep]))
      by (rewrite length_app; simpl; lia).
    replace (a ++ sep :: n) with ((a ++ [sep]) ++ n)
      by (rewrite <- app_assoc; reflexivity).
    rewrite drop_app_length. split; [exact Hn|]. split.
    + exists (a ++ [sep]). split; [reflexivity|]. right. rewrite endswith_app. apply N.eqb_refl.
    + intros He. destruct n as [|x n] using rev_ind; [reflexivity|].
      exfalso. rewrite app_assoc, endswith_app in He.
      apply N.eqb_eq in He. subst. apply Hn, in_or_app. right. left.
      reflexivity.
Qed.

(** The title of a payload is the last component of the path it is
    built for: it holds no separator, the full path is a directory
    part, empty or ending in a separator, followed by the title, and a
    path that ends in a separator gets an empty title. *)
Theorem payload_title_is_the_last_component (content fpath : str) :
  let payload := build_payload content fpath in
  ~ In sep (title payload) /\
  (exists dir, fullPath payload = dir ++ title payload /\
               (dir = [] \/ endswith sep dir = true)) /\
  (endswith sep fpath = true -> title payload = []).
Proof. cbv zeta. simpl. apply basename_last_component. Qed.


(** ** More on the text that is sent *)

Lemma universal_newlines_cons c r :
  universal_newlines (c :: r)
  = if c =? 0x0D then
      match r with
      | d :: r' => if d =? 0x0A then 0x0A :: universal_newlines r'
                   else 0x0A :: universal_newlines r
      | [] => [0x0A]
      end
    else c :: universal_newlines r.
Proof. reflexivity. Qed.

Lemma universal_newlines_no_cr_aux n : forall s,
  (length s <= n)%nat -> ~ In 0x0D (universal_newlines s).
Proof.
  induction n as [|n IH]; intros s Hn.
  - destruct s; [simpl; tauto | simpl in Hn; lia].
  - destruct s as [|c r]; [simpl; tauto|].
    rewrite universal_newlines_cons. simpl in Hn.
    destruct (N.eqb_spec c 0x0D) as [->|Hc].
    + destruct r as [|d r']; [intros [H|[]]; discriminate|].
      simpl in Hn.
      destruct (d =? 0x0A); apply not_in_cons; (split; [discriminate|]);
        apply IH; simpl; lia.
    + apply not_in_cons. split; [congruence|]. apply IH. lia.
Qed.

Lemma universal_newlines_fixed s :
  ~ In 0x0D s -> universal_newlines s = s.
Proof.
  induction s as [|c r IH]; [reflexivity|]. intros H.
  rewrite universal_newlines_cons.
  apply not_in_cons in H as [Hc Hr].
  destruct (N.eqb_spec c 0x0D) as [->|_]; [congruence|].
  f_equal. apply IH, Hr.
Qed.

Lemma universal_newlines_length_aux n : forall s,
  (length s <= n)%nat -> (length (universal_newlines s) <= length s)%nat.
Proof.
  induction n as [|n IH]; intros s Hn.
  - destruct s; [simpl; lia | simpl in Hn; lia].
  - destruct s as [|c r]; [simpl; lia|].
    rewrite universal_newlines_cons. simpl in Hn.
    destruct (c =? 0x0D).
    + destruct r as [|d r']; [simpl; lia|]. simpl in Hn.
      destruct (d =? 0x0A); cbn [length].
      * specialize (IH r' ltac:(lia)). lia.
      * specialize (IH (d :: r') ltac:(simpl; lia)). cbn [length] in IH. lia.
    + cbn [length]. specialize (IH r ltac:(lia)). lia.
Qed.

Lemma utf8_decode_length_aux n : forall m bs s,
  (length bs <= n)%nat ->
  utf8_decode m bs = Some s -> (length s <= length bs)%nat.
Proof.
  induction n as [|n IH]; intros m bs s Hn Hd.
  - destruct bs; [|simpl in Hn; lia]. injection Hd as <-. simpl. lia.
  - destruct bs as [|b0 r0]; [injection Hd as <-; simpl; lia|].
    simpl in Hd, Hn.
    repeat match type of Hd with
    | context [if ?c then _ else _] => destruct c eqn:?
    | context [match ?l with [] => _ | _ :: _ => _ end] =>
        is_var l; destruct l; simpl in Hn
    end;
    first [ apply emit_inv in Hd as (s' & Hs' & ->)
          | apply on_error_inv in Hd as (-> & s' & Hs' & ->) ];
    first [ injection Hs' as <-; simpl; lia
          | apply IH in Hs'; [simpl in *; lia | simpl; lia] ].
Qed.

Lemma utf8_decode_ascii m (bs : list N) :
  Forall (fun b => b < 0x80) bs -> utf8_decode m bs = Some bs.
Proof.
  induction 1 as [|b bs Hb _ IH]; [reflexivity|]. simpl.
  apply N.ltb_lt in Hb. rewrite Hb, IH. reflexivity.
Qed.

(** The text of a request never holds a carriage return (reading
    translates every line ending to a line feed), it has at most as
    many characters as the file has bytes, and a file of ASCII bytes
    without a carriage return is sent byte for byte. *)
Theorem text_content_is_newline_normalised env cfg fpath bs rq :
  fs_read env fpath = FileBytes bs ->
  In (IoPost rq) (snd (attempt env cfg fpath)) ->
  ~ In 0x0D (textContent (req_json rq)) /\
  (length (textContent (req_json rq)) <= length bs)%nat /\
  (Forall (fun b => Byte.to_N b < 0x80 /\ Byte.to_N b <> 0x0D) bs ->
   textContent (req_json rq) = List.map Byte.to_N bs).
Proof.
  intros Hbs Hin.
  pose proof (read_text_replace env fpath) as Hr. rewrite Hbs in Hr.
  destruct Hr as (s & Hd & Hs).
  pose proof (attempt_cases env cfg fpath) as Ha. rewrite Hs in Ha.
  destruct Ha as (o & Ha & _). rewrite Ha in Hin. simpl in Hin.
  destruct Hin as [Hin|[Hin|[]]]; [discriminate|]. injection Hin as <-.
  simpl. split; [|split].
  - apply (universal_newlines_no_cr_aux (length s)). lia.
  - pose proof (universal_newlines_length_aux (length s) s (le_n _)).
    pose proof (utf8_decode_length_aux _ _ _ _ (le_n _) Hd) as Hl.
    rewrite length_map in Hl. lia.
  - intros Hascii.
    assert (H1 : Forall (fun b => b < 0x80) (List.map Byte.to_N bs)).
    { apply Forall_map. eapply Forall_impl; [exact Hascii|]. simpl. tauto. }
    rewrite (utf8_decode_ascii _ _ H1) in Hd. injection Hd as <-.
    apply universal_newlines_fixed. intros Hin.
    apply in_map_iff in Hin as (b & Hb & Hin).
    rewrite Forall_forall in Hascii. apply list_elem_of_In in Hin.
    destruct (Hascii b Hin). congruence.
Qed.

Lemma text_content_is_newline_normalised_witness :
  exists rq,
    fs_read Ex.env_ok (lit "/data/a.txt") = FileBytes [x68; x69]%byte /\
    In (IoPost rq) (snd (attempt Ex.env_ok Ex.cfg (lit "/data/a.txt"))) /\
    ~ In 0x0D (textContent (req_json rq)) /\
    textContent (req_json rq) = lit "hi".
Proof.
  eexists. split; [reflexivity|]. split; [right; left; reflexivity|].
  destruct (text_content_is_newline_normalised Ex.env_ok Ex.cfg
              (lit "/data/a.txt") [x68; x69]%byte _ eq_refl
              (or_intror (or_introl eq_refl))) as (H1 & _ & _).
  split; [exact H1 | reflexivity].
Defined.


(** ** More on the CLI run *)

Lemma cli_loop_counts env cfg files : forall st,
  let st' := fold_left (cli_upload env cfg) files st in
  cli_success st'
  = (cli_success st
     + length (List.filter
                 (fun f => is_success (fst (attempt env cfg f))) files))%nat /\
  cli_fail st'
  = (cli_fail st
     + length (List.filter
                 (fun f => negb (is_success (fst (attempt env cfg f))))
                 files))%nat.
Proof.
  induction files as [|f files IH]; intros st; simpl.
  - split; lia.
  - destruct (IH (cli_upload env cfg st f)) as (H1 & H2).
    rewrite H1, H2. unfold cli_upload.
    destruct (attempt env cfg f) as [o cs]; simpl.
    destruct (is_success o); simpl; split; lia.
Qed.

Lemma opened_app cs1 cs2 : opened (cs1 ++ cs2) = opened cs1 ++ opened cs2.
Proof. unfold opened. apply omap_app. Qed.

Lemma posted_app cs1 cs2 : posted (cs1 ++ cs2) = posted cs1 ++ posted cs2.
Proof. unfold posted. apply omap_app. Qed.

Lemma attempt_opened env cfg fpath :
  opened (snd (attempt env cfg fpath)) = [fpath].
Proof.
  pose proof (attempt_cases env cfg fpath) as H.
  destruct (read_text Replace env fpath);
    [destruct H as (o & -> & _) | rewrite H]; reflexivity.
Qed.

Lemma attempt_posted env cfg fpath rq :
  In rq (posted (snd (attempt env cfg fpath))) ->
  fullPath (req_json rq) = fpath /\
  title (req_json rq) = basename fpath /\
  req_url rq = api_url cfg /\ req_bearer rq = api_token cfg.
Proof.
  pose proof (attempt_cases env cfg fpath) as H.
  destruct (read_text Replace env fpath).
  - destruct H as (o & -> & _). simpl. intros [<-|[]]. simpl. auto.
  - rewrite H. simpl. tauto.
Qed.


Lemma opened_flat_map env cfg files :
  opened (flat_map (fun f => snd (attempt env cfg f)) files) = files.
Proof.
  induction files as [|f files IH]; [reflexivity|]. simpl.
  rewrite opened_app, attempt_opened, IH. reflexivity.
Qed.

Lemma filter_none {A} (p : A -> bool) (l : list A) :
  (forall x, In x l -> p x = true) ->
  length (List.filter (fun x => negb (p x)) l) = 0%nat.
Proof.
  induction l as [|x l IH]; simpl; intros H; [reflexivity|].
  rewrite (H x) by auto. simpl. apply IH. auto.
Qed.

(** The sequential run opens the enumerated files one by one, each
    once and in the order of the enumeration; its success count is the
    number of files whose upload was answered with status 200 and its
    failure count the number of all others, so when every upload
    succeeds nothing is counted as failed. *)
Theorem cli_run_opens_each_file_once_in_order env base ignored cfg logs :
  let run := embed_files_cli env base ignored cfg logs in
  let ok := fun f => is_success (fst (attempt env cfg f)) in
  opened (cli_calls (cli_final run)) = cli_all_files run /\
  cli_success (cli_final run)
  = length (List.filter ok (cli_all_files run)) /\
  cli_fail (cli_final run)
  = length (List.filter (fun f => negb (ok f)) (cli_all_files run)) /\
  ((forall f, In f (cli_all_files run) -> ok f = true) ->
   cli_success (cli_final run) = length (cli_all_files run) /\
   cli_fail (cli_final run) = 0%nat) /\
  (fs_dir env base = None ->
   cli_all_files run = [] /\ cli_calls (cli_final run) = [] /\
   cli_success (cli_final run) = 0%nat /\ cli_fail (cli_final run) = 0%nat).
Proof.
  simpl.
  set (st0 := mkCli 0 0
                (log_message info (MsgFound (length (list_files env ignored base)))
                   (log_message info (MsgStarting base ignored) logs)) []).
  destruct (cli_loop env cfg (list_files env ignored base) st0) as (_ & H2 & _).
  destruct (cli_loop_counts env cfg (list_files env ignored base) st0)
    as (C1 & C2).
  simpl in H2, C1, C2. rewrite H2, C1, C2.
  split; [apply opened_flat_map|]. split; [reflexivity|].
  split; [reflexivity|]. split.
  - intros Hall. rewrite (filter_all _ _ Hall). split; [reflexivity|].
    apply filter_none, Hall.
  - intros Hd. unfold list_files. rewrite Hd. simpl. auto.
Qed.


(** ** The interactive CLI *)

Lemma split_on_nonempty c s : split_on c s <> [].
Proof.
  destruct s as [|x r]; simpl; [discriminate|].
  destruct (x =? c); [discriminate|]. destruct (split_on c r); discriminate.
Qed.

Lemma omap_length_le {A B} (f : A -> option B) (l : list A) :
  (length (omap f l) <= length l)%nat.
Proof.
  induction l as [|x l IH]; [simpl; lia|].
  change (omap f (x :: l))
    with (match f x with Some y => y :: omap f l | None => omap f l end).
  destruct (f x); simpl in *; lia.
Qed.

Lemma choose_loop py_int subs l : forall acc,
  fold_left
    (fun ignored_dirs i =>
       match pick_subdir py_int subs i with
       | Some d => ignored_dirs ++ [d]
       | None => ignored_dirs
       end) l acc
  = acc ++ omap (pick_subdir py_int subs) l.
Proof.
  induction l as [|i l IH]; intros acc; simpl.
  - rewrite app_nil_r. reflexivity.
  - rewrite IH. destruct (pick_subdir py_int subs i); simpl;
      rewrite <- ?app_assoc; reflexivity.
Qed.

Lemma pick_subdir_Some py_int subs i d :
  pick_subdir py_int subs i = Some d <->
  exists k, py_int i = Some k /\ (1 <= k <= Z.of_nat (length subs))%Z /\
            subs !! Z.to_nat (k - 1) = Some d.
Proof.
  unfold pick_subdir. split.
  - destruct (py_int i) as [k|]; [|discriminate].
    destruct (1 <=? k)%Z eqn:H1; [|discriminate].
    destruct (k <=? Z.of_nat (length subs))%Z eqn:H2; [|discriminate].
    simpl. intros H. exists k. split; [reflexivity|]. split; [lia | exact H].
  - intros (k & -> & [H1 H2] & H).
    apply Z.leb_le in H1, H2. rewrite H1, H2. exact H.
Qed.

Lemma pick_subdir_in_range py_int subs i k :
  py_int i = Some k -> (1 <= k <= Z.of_nat (length subs))%Z ->
  exists d, pick_subdir py_int subs i = Some d.
Proof.
  intros Hi Hk.
  destruct (lookup_lt_is_Some_2 subs (Z.to_nat (k - 1))) as [d Hd]; [lia|].
  exists d. apply pick_subdir_Some. eauto.
Qed.

(** The numbers typed at the prompt pick subdirectories of the list
    that was shown, and nothing else: a name is ignored exactly when
    some comma-separated piece of the answer, stripped, is read by
    [int] as a number between 1 and the length of the list, and the
    name stands at that place of the list.  Pieces that are no number,
    zero, negative or too large are skipped, and an empty answer
    ignores nothing. *)
Theorem cli_selection_picks_listed_subdirs
  (py_int : str -> option Z) (subs : list str) (user_input : str) :
  let chosen := choose_ignored py_int subs user_input in
  (forall d, In d chosen <->
     exists piece k,
       In piece (split_on comma user_input) /\ user_input <> [] /\
       py_int (strip piece) = Some k /\
       (1 <= k <= Z.of_nat (length subs))%Z /\
       subs !! Z.to_nat (k - 1) = Some d) /\
  Forall (fun d => In d subs) chosen /\
  (length chosen <= length (split_on comma user_input))%nat /\
  choose_ignored py_int subs [] = [].
Proof.
  unfold choose_ignored. cbv zeta.
  assert (Hin : forall l d,
            In d (omap (pick_subdir py_int subs) (List.map strip l)) <->
            exists piece k,
              In piece l /\ py_int (strip piece) = Some k /\
              (1 <= k <= Z.of_nat (length subs))%Z /\
              subs !! Z.to_nat (k - 1) = Some d).
  { intros l d. rewrite <- list_elem_of_In, list_elem_of_omap. split.
    - intros (i & Hi & Hp). apply list_elem_of_In, in_map_iff in Hi
        as (piece & <- & Hpiece).
      apply pick_subdir_Some in Hp as (k & Hk & Hr & Hd). eauto 8.
    - intros (piece & k & Hpiece & Hk & Hr & Hd). exists (strip piece).
      split; [apply list_elem_of_In, in_map, Hpiece|].
      apply pick_subdir_Some. eauto. }
  destruct user_input as [|c u]; simpl truthy; cbv iota.
  - split; [|split; [constructor | split; [simpl; lia | reflexivity]]].
    intros d. split; [intros [] | intros (? & ? & _ & H & _); congruence].
  - rewrite choose_loop, app_nil_l.
    split; [|split; [|split; [|reflexivity]]].
    + intros d. rewrite Hin. split.
      * intros (piece & k & H1 & H2 & H3 & H4). exists piece, k.
        split; [exact H1|]. split; [discriminate|]. auto.
      * intros (piece & k & H1 & _ & H2 & H3 & H4). eauto 8.
    + apply Forall_forall. intros d Hd.
      apply list_elem_of_In, Hin in Hd as (_ & k & _ & _ & _ & Hd).
      apply list_elem_of_In, list_elem_of_lookup. eauto.

    + etransitivity; [apply omap_length_le|]. rewrite length_map. reflexivity.
Qed.


Lemma ask_directory_spec env inputs : forall base_dir notes,
  exists rejected,
    Forall (fun p => isdir env p = false) rejected /\
    snd (ask_directory env base_dir inputs notes)
    = notes ++ List.map (fun p => (warning, NoteInvalidDirectory p)) rejected /\
    match fst (ask_directory env base_dir inputs notes) with
    | Some (base, rest) =>
        isdir env base = true /\
        base_dir :: List.map strip inputs
        = rejected ++ base :: List.map strip rest /\
        exists used, inputs = used ++ rest
    | None => base_dir :: List.map strip inputs = rejected
    end.
Proof.
  induction inputs as [|l inputs IH]; intros base_dir notes; simpl;
    destruct (isdir env base_dir) eqn:Hd; simpl.
  - exists []. rewrite app_nil_r. repeat split; auto. exists []. reflexivity.
  - exists [base_dir]. repeat split; auto.
  - exists []. rewrite app_nil_r. repeat split; auto. exists []. reflexivity.
  - destruct (IH (strip l) (notes ++ [(warning, NoteInvalidDirectory base_dir)]))
      as (rej & Hrej & Hn & Hres).
    exists (base_dir :: rej). split; [constructor; assumption|].
    split; [rewrite Hn, <- app_assoc; reflexivity|].
    destruct (fst (ask_directory env (strip l) inputs _)) as [[base rest]|].
    + destruct Hres as (H1 & H2 & used & H3).
      split; [exact H1|]. split; [simpl; congruence|].
      exists (l :: used). simpl. congruence.
    + simpl. congruence.
Qed.

(** The directory prompt accepts the first answer (stripped) that is
    a directory and logs one warning for each answer before it, in
    order; when the input ends first it has warned about every answer
    and [input] raises. *)
Theorem directory_prompt_takes_the_first_directory env base_dir inputs notes :
  exists rejected,
    Forall (fun p => isdir env p = false) rejected /\
    snd (ask_directory env base_dir inputs notes)
    = notes ++ List.map (fun p => (warning, NoteInvalidDirectory p)) rejected /\
    match fst (ask_directory env base_dir inputs notes) with
    | Some (base, rest) =>
        isdir env base = true /\
        base_dir :: List.map strip inputs
        = rejected ++ base :: List.map strip rest /\
        exists used, inputs = used ++ rest
    | None => base_dir :: List.map strip inputs = rejected
    end.
Proof. apply ask_directory_spec. Qed.

Lemma choose_ignored_listed py_int subs user_input :
  Forall (fun d => In d subs) (choose_ignored py_int subs user_input).
Proof.
  unfold choose_ignored. destruct (truthy user_input); [|constructor].
  rewrite choose_loop, app_nil_l. apply Forall_forall. intros d Hd.
  apply list_elem_of_omap in Hd as (i & _ & Hp).
  apply pick_subdir_Some in Hp as (k & _ & _ & Hk).
  apply list_elem_of_In, list_elem_of_lookup. eauto.
Qed.

Lemma confirm_and_embed_end env base ignored cfg notes inputs :
  match cs_end (confirm_and_embed env base ignored cfg notes inputs) with
  | Embedded b i c run =>
      b = base /\ i = ignored /\ c = cfg /\
      run = embed_files_cli env base ignored cfg []
  | Exit1 => False
  | EOFError =>
      cs_unread (confirm_and_embed env base ignored cfg notes inputs) = []
  end /\
  exists line,
    cs_notes (confirm_and_embed env base ignored cfg notes inputs)
    = notes ++ [(info, line)].
Proof.
  unfold confirm_and_embed. destruct inputs as [|l rest]; simpl;
    (split; [auto | eexists; reflexivity]).
Qed.

(** [run_cli_mode] uploads only after its checks: when it reaches
    [embed_files_cli] the configuration is valid, the base directory
    is a directory, every ignored name is one of its listed
    subdirectories, and the log starts with the "CLI Mode" line; with
    an invalid configuration it exits with status 1 after logging the
    error alone, before it asks for a directory; and it ends with
    [EOFError] only with all input read. *)
Theorem cli_session_uploads_only_after_its_checks
  (py_int : str -> option Z) env args inputs :
  let s := run_cli_mode py_int env args inputs in
  match cs_end s with
  | Embedded base ignored cfg run =>
      is_valid cfg = true /\ isdir env base = true /\
      Forall (fun d => In d (list_subdirs env base)) ignored /\
      run = embed_files_cli env base ignored cfg [] /\
      (exists rest, cs_notes s = (info, NoteCliMode) :: rest)
  | Exit1 => cs_notes s = [(error, NoteInvalidConfig)]
  | EOFError => cs_unread s = []
  end.
Proof.
  cbv zeta. unfold run_cli_mode.
  destruct (prompt_if_missing (arg_api_url args) inputs)
    as [[url in1]|]; [|reflexivity].
  destruct (prompt_if_missing (arg_api_token args) in1)
    as [[token in2]|]; [|reflexivity].
  destruct (is_valid (Config_init (Some url) (Some token))) eqn:Hv; simpl;
    [|reflexivity].
  destruct in2 as [|l in3]; [reflexivity|]. simpl.
  pose proof (ask_directory_spec env in3 (strip l) [(info, NoteCliMode)])
    as (rej & _ & Hn & Hres).
  destruct (ask_directory env (strip l) in3 [(info, NoteCliMode)])
    as [[[base in4]|] notes]; simpl in Hn, Hres; [|reflexivity].
  destruct Hres as (Hd & _).
  assert (Hfin : forall ignored ns in5,
    Forall (fun d => In d (list_subdirs env base)) ignored ->
    (exists rest, ns = (info, NoteCliMode) :: rest) ->
    let s := confirm_and_embed env base ignored
               (Config_init (Some url) (Some token)) ns in5 in
    match cs_end s with
    | Embedded base0 ignored0 cfg run =>
        is_valid cfg = true /\ isdir env base0 = true /\
        Forall (fun d => In d (list_subdirs env base0)) ignored0 /\
        run = embed_files_cli env base0 ignored0 cfg [] /\
        (exists rest, cs_notes s = (info, NoteCliMode) :: rest)
    | Exit1 => cs_notes s = [(error, NoteInvalidConfig)]
    | EOFError => cs_unread s = []
    end).
  { intros ignored ns in5 Hign (rest & ->). cbv zeta.
    destruct (confirm_and_embed_end env base ignored
                (Config_init (Some url) (Some token))
                ((info, NoteCliMode) :: rest) in5) as (He & line & Hl).
    destruct (cs_end _) as [| |b i c run]; [tauto | exact He |].
    destruct He as (-> & -> & -> & ->). rewrite Hl. simpl. eauto 8. }
  assert (Hns : exists rest, notes = (info, NoteCliMode) :: rest)
    by (rewrite Hn; simpl; eauto).
  destruct (list_subdirs env base) as [|s0 subs] eqn:Hsubs.
  - apply Hfin; [constructor|]. destruct Hns as (rest & ->). simpl. eauto.
  - destruct in4 as [|l' in5]; [reflexivity|]. simpl.
    apply Hfin; [|exact Hns]. apply choose_ignored_listed.
Qed.


Lemma posted_flat_map env cfg files rq :
  In rq (posted (flat_map (fun f => snd (attempt env cfg f)) files)) ->
  exists f, In f files /\ In rq (posted (snd (attempt env cfg f))).
Proof.
  induction files as [|f files IH]; simpl; [tauto|].
  rewrite posted_app, in_app_iff. intros [H|H]; [eauto|].
  destruct (IH H) as (g & Hg & Hr). eauto.
Qed.

(** End to end for the sequential run over a directory tree as a file
    system holds it: a file of the tree is opened exactly when no
    directory between the root and the file has an ignored name, and
    every request that is sent stands for such a file, with the file's
    name as title and its enumerated path as full path. *)
Theorem cli_run_touches_exactly_the_kept_files env base ignored cfg logs d :
  fs_dir env base = Some d -> wf_dir d = true ->
  let run := embed_files_cli env base ignored cfg logs in
  (forall p, In p (tree_files d) ->
     (In (path_of base p) (opened (cli_calls (cli_final run)))
      <-> under_ignored ignored p = false)) /\
  (forall rq, In rq (posted (cli_calls (cli_final run))) ->
     exists p, In p (tree_files d) /\ under_ignored ignored p = false /\
               fullPath (req_json rq) = path_of base p /\
               title (req_json rq) = snd p /\
               req_url rq = api_url cfg /\ req_bearer rq = api_token cfg).
Proof.
  intros Hd Hwf. cbv zeta.
  assert (Hfiles : cli_all_files (embed_files_cli env base ignored cfg logs)
                   = enumerate ignored base d)
    by (simpl; unfold list_files; rewrite Hd; reflexivity).
  pose proof (cli_loop env cfg (list_files env ignored base)
                (mkCli 0 0
                   (log_message info
                      (MsgFound (length (list_files env ignored base)))
                      (log_message info (MsgStarting base ignored) logs)) []))
    as (_ & Hc & _).
  simpl in Hc, Hfiles |- *. rewrite Hc, Hfiles. split.
  - intros p Hp. rewrite opened_flat_map. split.
    + intros (q & Hq & Hk & E)%enumerate_In.
      apply path_of_inj in E;
        try (apply (tree_files_valid d Hwf); assumption).
      congruence.
    + intros Hk. apply enumerate_In. eauto.
  - intros rq Hrq. apply posted_flat_map in Hrq as (f & Hf & Hrq).
    apply attempt_posted in Hrq as (H1 & H2 & H3 & H4).
    apply enumerate_In in Hf as (p & Hp & Hk & ->).
    exists p. split; [exact Hp|]. split; [exact Hk|].
    split; [exact H1|]. split; [|auto].
    rewrite H2. unfold path_of. apply basename_join.
    pose proof (tree_files_valid d Hwf p Hp) as Hv.
    unfold all_valid, comps in Hv. apply Forall_app in Hv as [_ Hv].
    inversion Hv; assumption.
Qed.

Lemma cli_run_touches_exactly_the_kept_files_witness :
  fs_dir Ex2.env (lit "/data") = Some Ex.tree /\ wf_dir Ex.tree = true /\
  ~ In (lit "/data/ignored_dir/b.txt")
       (opened (cli_calls (cli_final
          (embed_files_cli Ex2.env (lit "/data") Ex.ignored Ex.cfg [])))) /\
  In (lit "/data/sub/c.txt")
     (opened (cli_calls (cli_final
        (embed_files_cli Ex2.env (lit "/data") Ex.ignored Ex.cfg [])))).
Proof.
  split; [reflexivity|]. split; [reflexivity|].
  destruct (cli_run_touches_exactly_the_kept_files Ex2.env (lit "/data")
              Ex.ignored Ex.cfg [] Ex.tree eq_refl eq_refl) as (H & _).
  split.
  - intros Hin.
    apply (H ([lit "ignored_dir"], lit "b.txt")) in Hin;
      [discriminate | vm_compute; auto].
  - apply (H ([lit "sub"], lit "c.txt")); [vm_compute; auto | reflexivity].
Defined.

(** A session at the prompt: a wrong path is refused with a warning,
    [/data] accepted, the answer ["1, x,0,7"] ignores the first listed
    subdirectory only, and the two files outside it are uploaded. *)
Example cli_session_example :
  let s := run_cli_mode Ex2.digits_int Ex2.env Ex2.args Ex2.typed in
  cs_notes s = [(info, NoteCliMode);
                (warning, NoteInvalidDirectory (lit "/nowhere"));
                (info, NoteIgnoring [lit "ignored_dir"])] /\
  cs_unread s = [] /\
  exists run,
    cs_end s = Embedded (lit "/data") [lit "ignored_dir"] Ex.cfg run /\
    cli_all_files run = [lit "/data/a.txt"; lit "/data/sub/c.txt"] /\
    cli_success (cli_final run) = 2%nat /\ cli_fail (cli_final run) = 0%nat.
Proof. vm_compute. repeat split. eexists. repeat split. Qed.


(** ** The rest of the GUI *)

Lemma lstrip_fixed s :
  (forall x r, s = x :: r -> isspace x = false) -> lstrip s = s.
Proof.
  destruct s as [|x r]; [reflexivity|]. intros H. simpl.
  rewrite (H x r eq_refl). reflexivity.
Qed.

Lemma strip_strip s : strip (strip s) = strip s.
Proof.
  unfold strip, rstrip.
  set (t := lstrip s). set (u := lstrip (rev t)).
  assert (Hu : forall x r, u = x :: r -> isspace x = false)
    by (intros x r; apply lstrip_head).
  assert (Ht : forall x r, t = x :: r -> isspace x = false)
    by (intros x r; apply lstrip_head).
  assert (Hpre : exists p, t = rev u ++ p).
  { destruct (lstrip_suffix (rev t)) as [p Hp]. fold u in Hp.
    exists (rev p). rewrite <- rev_app_distr, <- Hp, rev_involutive.
    reflexivity. }
  assert (Hl : lstrip (rev u) = rev u).
  { apply lstrip_fixed. intros x r Hx. destruct Hpre as [p Hp].
    rewrite Hx in Hp. apply (Ht x (r ++ p)). exact Hp. }
  rewrite Hl, rev_involutive, (lstrip_fixed u Hu). reflexivity.
Qed.

(** Saving the settings stores the two entries stripped of surrounding
    whitespace, whether or not they are accepted: the stored fields are
    unchanged by a further strip, the save is accepted (logged and the
    window closed) exactly when both entries hold a character that is
    not whitespace, and after a rejected save the application holds an
    invalid configuration, so that "Start Embedding" starts nothing
    until valid settings are saved.  No other field of the application
    changes. *)
Theorem save_config_stores_stripped_entries (a : App)
  (url_entry token_entry : str) :
  let a' := fst (save_config a url_entry token_entry) in
  let shown := snd (save_config a url_entry token_entry) in
  api_url (app_config a') = strip url_entry /\
  api_token (app_config a') = strip token_entry /\
  strip (api_url (app_config a')) = api_url (app_config a') /\
  strip (api_token (app_config a')) = api_token (app_config a') /\
  is_valid (app_config a') = is_valid (mkConfig url_entry token_entry) /\
  (is_valid (app_config a') = true <->
   shown = [UpdatedConfigLogged (strip url_entry); ConfigWindowClosed]) /\
  (is_valid (app_config a') = false <-> shown = [WarnInvalidConfig]) /\
  (is_valid (app_config a') = false ->
   forall env logs selection confirm,
     launch env a' logs selection confirm = None) /\
  set_config (app_config a) a' = a.
Proof.
  cbv zeta. unfold save_config.
  assert (Hv : is_valid (mkConfig (strip url_entry) (strip token_entry))
               = is_valid (mkConfig url_entry token_entry))
    by (unfold is_valid; simpl; rewrite !strip_strip; reflexivity).
  destruct (is_valid (mkConfig (strip url_entry) (strip token_entry))) eqn:E;
    simpl; rewrite ?strip_strip, ?E;
    (do 4 (split; [reflexivity|])); (split; [exact Hv|]).
  - split; [tauto|]. split; [split; discriminate|].
    split; [discriminate | destruct a; reflexivity].
  - split; [split; discriminate|]. split; [tauto|].
    split; [|destruct a; reflexivity].
    intros _ env logs selection confirm. unfold launch, start_embedding.
    simpl. rewrite E. reflexivity.
Qed.

Lemma list_subdirs_coherent env base d :
  coherent env base d ->
  list_subdirs env base = List.map fst (match d with MkDir _ subs => subs end).
Proof.
  intros (Hd & Hs & Hf). unfold list_subdirs. rewrite Hd.
  destruct d as [files subs]. simpl. rewrite List.filter_app.
  assert (H1 : List.filter (fun n => isdir env (join base n)) (List.map fst subs)
               = List.map fst subs).
  { apply filter_all. intros n (s & <- & Hin)%in_map_iff.
    rewrite Forall_forall in Hs. apply Hs, list_elem_of_In, Hin. }
  assert (H2 : List.filter (fun n => isdir env (join base n)) files = []).
  { clear - Hf. induction Hf as [|f l Hf _ IH]; simpl; [reflexivity|].
    rewrite Hf. exact IH. }
  rewrite H1, H2, app_nil_r. reflexivity.
Qed.

(** Choosing a folder, with a valid configuration and a directory tree
    that is where the file system says: the application then holds the
    chosen path and, as the list to pick from, the names of exactly the
    direct subdirectories of that folder, in their order; nothing else
    changes.  With an invalid configuration no folder is asked for and
    nothing changes, and a cancelled dialog changes nothing. *)
Theorem select_folder_lists_the_direct_subdirectories env (a : App)
  (chosen : str) (d : Dir) :
  coherent env chosen d -> is_valid (app_config a) = true ->
  chosen <> [] ->
  let a' := fst (select_folder env a chosen) in
  base_dir a' = chosen /\
  subdirs a' = List.map fst (match d with MkDir _ subs => subs end) /\
  set_folder (base_dir a) (subdirs a) a' = a /\
  snd (select_folder env a chosen) = [DirectoryAsked] /\
  fst (select_folder env a []) = a /\
  (forall cfg, is_valid cfg = false ->
     select_folder env (set_config cfg a) chosen
     = (set_config cfg a, [InfoConfigurationNeeded; ConfigWindowOpened])).
Proof.
  intros Hc Hv Hn. cbv zeta. unfold select_folder. rewrite Hv. simpl.
  assert (Hd : isdir env chosen = true)
    by (unfold isdir; destruct Hc as (-> & _); reflexivity).
  destruct chosen as [|x r]; [congruence|]. simpl truthy. cbv iota.
  rewrite Hd. simpl. rewrite (list_subdirs_coherent _ _ _ Hc).
  do 2 (split; [reflexivity|]). split; [destruct a; reflexivity|].
  do 2 (split; [reflexivity|]).
  intros cfg Hcfg. rewrite Hcfg. reflexivity.
Qed.

Lemma select_folder_lists_the_direct_subdirectories_witness :
  coherent Ex2.env (lit "/data") Ex.tree /\
  is_valid (app_config (new_app Ex.cfg)) = true /\
  subdirs (fst (select_folder Ex2.env (new_app Ex.cfg) (lit "/data")))
  = [lit "ignored_dir"; lit "sub"].
Proof.
  assert (Hc : coherent Ex2.env (lit "/data") Ex.tree).
  { split; [reflexivity|]. split; repeat constructor. }
  split; [exact Hc|]. split; [reflexivity|].
  destruct (select_folder_lists_the_direct_subdirectories Ex2.env
              (new_app Ex.cfg) (lit "/data") Ex.tree Hc eq_refl)
    as (_ & H & _); [discriminate|].
  exact H.
Defined.

Lemma selected_names_Some subs selection :
  (exists ign, selected_names subs selection = Some ign) <->
  Forall (fun i => (i < length subs)%nat) selection.
Proof.
  induction selection as [|i sel IH]; simpl.
  - split; [constructor | eauto].
  - split.
    + intros (ign & H). destruct (subs !! i) as [d|] eqn:Hi; [|discriminate].
      destruct (selected_names subs sel) as [ds|] eqn:Hs; [|discriminate].
      constructor; [eauto using lookup_lt_Some | apply IH; eauto].
    + intros H. inversion H as [|? ? Hi Hsel]; subst.
      apply IH in Hsel as (ds & ->).
      destruct (lookup_lt_is_Some_2 _ _ Hi) as [d ->]. eauto.
Qed.

Lemma selected_names_spec subs selection ign :
  selected_names subs selection = Some ign ->
  Forall2 (fun i d => subs !! i = Some d) selection ign.
Proof.
  revert ign. induction selection as [|i sel IH]; simpl; intros ign H.
  - injection H as <-. constructor.
  - destruct (subs !! i) as [d|] eqn:Hi; [|discriminate].
    destruct (selected_names subs sel) as [ds|] eqn:Hs; [|discriminate].
    injection H as <-. constructor; auto.
Qed.



(** ** More invariants of the threaded run *)

Lemma step_keeps_folder env ev r r' :
  step env ev r = Some r' ->
  base_dir (app r') = base_dir (app r) /\
  ignored_dirs (app r') = ignored_dirs (app r) /\
  app_config (app r') = app_config (app r) /\
  subdirs (app r') = subdirs (app r).
Proof.
  intros H. step_inv H; simpl; norm_store; simpl; rew_all; auto.
Qed.

Lemma step_log_grows env ev r r' :
  step env ev r = Some r' ->
  exists l, memory_logs r' = memory_logs r ++ l /\ (length l <= 1)%nat.
Proof.
  intros H.
  step_inv H; simpl; unfold log_message; simpl; norm_store; simpl;
    first
      [ exists []; rewrite app_nil_r; split; [congruence | simpl; lia]
      | eexists [_]; split; [reflexivity | simpl; lia]
      | eexists [_]; split; [|simpl; lia];
        match goal with
        | E : memory_logs _ = memory_logs _ |- _ => rewrite E; reflexivity
        end ].
Qed.

(** A run only appends to the global log: after any schedule the log
    is the earlier log followed by at most one new line per step. *)
Theorem run_only_appends_to_the_log env evs r r' :
  exec env evs r = Some r' ->
  exists l, memory_logs r' = memory_logs r ++ l /\
            (length l <= length evs)%nat.
Proof.
  revert r. induction evs as [|ev evs IH]; intros r He; simpl in He.
  - injection He as <-. exists []. rewrite app_nil_r. split; [reflexivity|].
    simpl. lia.
  - destruct (step env ev r) as [r1|] eqn:Hs; [|discriminate].
    destruct (step_log_grows _ _ _ _ Hs) as (l1 & H1 & L1).
    destruct (IH r1 He) as (l2 & H2 & L2).
    exists (l1 ++ l2). rewrite H2, H1, <- app_assoc, length_app.
    split; [reflexivity | simpl; lia].
Qed.

Lemma run_only_appends_to_the_log_witness :
  exists r r',
    Ex.run_of Ex.env_ok Ex.walk_all = Some r /\
    exec Ex.env_ok Ex.uploads_in_turn r = Some r' /\
    exists l, memory_logs r' = memory_logs r ++ l /\ (length l <= 6)%nat.
Proof.
  assert (E : exists r r',
             Ex.run_of Ex.env_ok Ex.walk_all = Some r /\
             exec Ex.env_ok Ex.uploads_in_turn r = Some r')
    by (vm_compute; do 2 eexists; split; reflexivity).
  destruct E as (r & r' & E1 & E2). exists r, r'.
  split; [exact E1|]. split; [exact E2|].
  exact (run_only_appends_to_the_log Ex.env_ok Ex.uploads_in_turn r r' E2).
Defined.





Lemma pending_prefix p acc : exists rest, acc ++ rest = pending p acc.
Proof.
  destruct p; simpl; eauto; exists []; apply app_nil_r.
Qed.

Lemma step_files_frozen env ev r r' :
  step env ev r = Some r' -> stop_requested (app r') = true ->
  all_files r' = all_files r.
Proof.
  intros H Hs.
  step_inv H; simpl in *; norm_store; simpl in *; rew_all;
    try reflexivity; try congruence.
Qed.

Lemma inv_prefix_step env ev r r' :
  inv_enum env r -> inv_prefix env r -> step env ev r = Some r' ->
  inv_prefix env r'.
Proof.
  intros E P H. unfold inv_prefix.
  destruct (step_keeps_folder _ _ _ _ H) as (Hb & Hi & _).
  destruct (stop_requested (app r')) eqn:Hs.
  - rewrite (step_files_frozen _ _ _ _ H Hs), Hb, Hi. exact P.
  - pose proof (inv_enum_step _ _ _ _ E H Hs) as E'. rewrite <- E'.
    apply pending_prefix.
Qed.

Lemma reachable_prefix env r :
  reachable env r -> inv_prefix env r.
Proof.
  revert r. apply reachable_ind.
  - intros a logs sel r0 Hl.
    destruct (launch_inv _ _ _ _ _ Hl) as (ign & _ & ->).
    exists (list_files env ign (base_dir a)). reflexivity.
  - intros ev r r' Hr P H. eapply inv_prefix_step; try eassumption.
    apply (reachable_Inv _ _ Hr).
Qed.



Lemma inv_bar_step env ev r r' :
  inv_bar r -> step env ev r = Some r' -> inv_bar r'.
Proof.
  intros I H.
  step_inv H; unfold inv_bar in *; simpl in *; norm_store; simpl in *;
    repeat match goal with
    | E : at_line ?r = _ |- _ => rewrite E in *; simpl in *
    end;
    try (split; [intros; try discriminate; try reflexivity; tauto
                |intros; try discriminate; try congruence; tauto]).
  all: try (rew_all; assumption).
  all: try (split; intros; rew_all; try discriminate; try congruence;
            destruct I as (I1 & I2); auto).
Qed.

(** From the moment the total is known the maximum of the progress
    bar is the number of files; and once a run that was not stopped has
    logged its summary the bar is full. *)
Theorem progress_bar_is_full_when_completed env r :
  reachable env r ->
  (walking (at_line r) = false ->
   progress_maximum (app r) = length (all_files r)) /\
  (after_join (at_line r) = true -> at_line r <> PcSummary ->
   stop_requested (app r) = false ->
   progress_value (app r) = progress_maximum (app r)).
Proof.
  intros Hr.
  assert (B : inv_bar r).
  { revert r Hr. apply reachable_ind.
    - intros a logs sel r0 (ign & _ & ->)%launch_inv.
      split; simpl; intros; discriminate.
    - intros ev r r' _. apply inv_bar_step. }
  destruct B as (B1 & B2). split; [exact B1|].
  intros Ha Hn Hs. rewrite (B2 Ha Hn Hs). symmetry. apply B1.
  destruct (at_line r); simpl in *; congruence.
Qed.

Lemma progress_bar_is_full_when_completed_witness :
  exists r,
    Ex.run_of Ex.env_ok
      (Ex.walk_all ++ Ex.uploads_in_turn ++ Ex.finish_thread) = Some r /\
    reachable Ex.env_ok r /\
    at_line r = PcDone /\
    progress_maximum (app r) = 2%nat /\
    progress_value (app r) = progress_maximum (app r).
Proof.
  assert (E : exists r,
             Ex.run_of Ex.env_ok
               (Ex.walk_all ++ Ex.uploads_in_turn ++ Ex.finish_thread)
             = Some r /\
             at_line r = PcDone /\ stop_requested (app r) = false /\
             progress_maximum (app r) = 2%nat)
    by (vm_compute; eexists; repeat split).
  destruct E as (r & E & Hd & Hs & Hm). exists r. split; [exact E|].
  pose proof (run_of_reachable _ _ _ E) as Hr. split; [exact Hr|].
  split; [exact Hd|]. split; [exact Hm|].
  apply (proj2 (progress_bar_is_full_when_completed Ex.env_ok r Hr)).
  - rewrite Hd. reflexivity.
  - rewrite Hd. discriminate.
  - exact Hs.
Defined.






Lemma user_step_calls env ev r r' :
  ev <> EvThread -> (forall i, ev <> EvWorker i) ->
  step env ev r = Some r' ->
  calls r' = calls r /\ futures r' = futures r /\
  all_files r' = all_files r /\
  success_count r' = success_count r /\ fail_count r' = fail_count r /\
  at_line r' = at_line r /\ total_files r' = total_files r.
Proof.
  intros Ht Hw H. destruct ev as [|i| |selection confirm]; simpl in H.
  - congruence.
  - destruct (Hw i). reflexivity.
  - destruct (stop_embedding (app r) (memory_logs r)). simplify_eq.
    simpl. repeat split; reflexivity.
  - destruct (embedding_in_progress (app r)); simplify_eq.
    simpl. repeat split; reflexivity.
Qed.




(** ** A stop before any upload has begun *)

Lemma step_calls_frozen env ev r r' :
  inv_shape r ->
  step env ev r = Some r' -> stop_requested (app r) = true ->
  (forall k, not_started (futures r !! k)) ->
  calls r' = calls r /\ success_count r' = success_count r /\
  fail_count r' = fail_count r.
Proof.
  intros S H Hs Hn.
  destruct ev as [|i| |selection confirm].
  - simpl in H. unfold thread_step in H.
    repeat case_match; simplify_eq; unfold inv_shape in S; simpl in *;
      repeat match goal with
      | E : at_line r = _ |- _ => rewrite E in S; simpl in S
      end; try (repeat split; reflexivity); try congruence.
    all: destruct S as (_ & _ & _ & _ & -> & ->); repeat split; reflexivity.
  - simpl in H. unfold worker_step in H. specialize (Hn i).
    unfold not_started in Hn.
    repeat case_match; simplify_eq; simpl;
      try (repeat split; reflexivity);
      try (destruct Hn as [Hn|[Hn|Hn]]; congruence).
  - destruct (user_step_calls env EvStop r r' ltac:(discriminate)
                ltac:(intros; discriminate) H) as (-> & _ & _ & -> & -> & _). auto.
  - destruct (user_step_calls env (EvStart selection confirm) r r' ltac:(discriminate)
                ltac:(intros; discriminate) H) as (-> & _ & _ & -> & -> & _). auto.
Qed.

(** When the stop is requested while no upload has begun (during the
    walk, or before a pool thread has passed the check of line 461),
    the rest of the run opens no file, sends no request and counts
    nothing, whatever the schedule. *)
Theorem stop_before_uploads_sends_nothing env evs r r' :
  reachable env r ->
  stop_requested (app r) = true ->
  (forall k, not_started (futures r !! k)) ->
  exec env evs r = Some r' ->
  calls r' = calls r /\
  success_count r' = success_count r /\ fail_count r' = fail_count r /\
  (forall k, not_started (futures r' !! k)).
Proof.
  intros Hr. apply reachable_Inv in Hr. revert r Hr.
  induction evs as [|ev evs IH]; intros r I Hs Hn He; simpl in He.
  - injection He as <-. auto.
  - destruct (step env ev r) as [r1|] eqn:Hst; [|discriminate].
    destruct (step_calls_frozen _ _ _ _ (proj1 I) Hst Hs Hn)
      as (<- & <- & <-).
    apply IH; [eapply Inv_step; eassumption | | | exact He].
    + eapply step_stop_monotone; eassumption.
    + intros k. eapply step_not_started; eauto.
Qed.

Lemma stop_before_uploads_sends_nothing_witness :
  exists r r',
    Ex.run_of Ex.env_ok Ex2.stop_during_walk = Some r /\
    reachable Ex.env_ok r /\
    futures r = [Queued] /\
    exec Ex.env_ok Ex2.drain_stopped_walk r = Some r' /\
    at_line r' = PcDone /\
    calls r' = [] /\ success_count r' = 0%nat /\ fail_count r' = 0%nat.
Proof.
  assert (E : exists r r',
             Ex.run_of Ex.env_ok Ex2.stop_during_walk = Some r /\
             stop_requested (app r) = true /\
             futures r = [Queued] /\ calls r = [] /\
             success_count r = 0%nat /\ fail_count r = 0%nat /\
             exec Ex.env_ok Ex2.drain_stopped_walk r = Some r' /\
             at_line r' = PcDone)
    by (vm_compute; do 2 eexists; repeat split).
  destruct E as (r & r' & E & Hs & Hf & Hc & Hsc & Hfc & He & Hd).
  exists r, r'. split; [exact E|].
  pose proof (run_of_reachable _ _ _ E) as Hr. split; [exact Hr|].
  split; [exact Hf|]. split; [exact He|]. split; [exact Hd|].
  assert (Hn : forall k, not_started (futures r !! k)).
  { intros k. rewrite Hf. unfold not_started.
    destruct k as [|k]; simpl; auto. }
  destruct (stop_before_uploads_sends_nothing Ex.env_ok
              Ex2.drain_stopped_walk r r' Hr Hs Hn He)
    as (H1 & H2 & H3 & _).
  rewrite H1, H2, H3. auto.
Defined.


(** ** Runs in which no two increments overlap *)











(** ** Every file is opened at most once *)

Lemma started_files_nil fs : started_files fs [] = [].
Proof. destruct fs; reflexivity. Qed.

Lemma started_files_replicate fs n :
  started_files fs (replicate n Queued) = [].
Proof.
  revert n. induction fs as [|f fs IH]; intros [|n]; simpl; auto.
Qed.

Lemma started_files_sublist fs : forall ts,
  sublist (started_files fs ts) fs.
Proof.
  induction fs as [|f fs IH]; intros [|t ts]; simpl;
    try apply sublist_nil_l.
  destruct (past_io t); [apply sublist_skip | apply sublist_cons]; apply IH.
Qed.

Lemma started_files_all fs : forall ts,
  length ts = length fs ->
  (forall i t, ts !! i = Some t -> past_io t = true) ->
  started_files fs ts = fs.
Proof.
  induction fs as [|f fs IH]; intros [|t ts] Hl H; simpl in *;
    try discriminate; [reflexivity|].
  rewrite (H 0%nat t eq_refl). f_equal.
  apply IH; [lia|]. intros i t' Hi. apply (H (S i) t' Hi).
Qed.

Lemma started_files_insert_same fs : forall ts i t t',
  ts !! i = Some t -> past_io t' = past_io t ->
  started_files fs (<[i := t']> ts) = started_files fs ts.
Proof.
  induction fs as [|f fs IH]; intros [|x ts] [|i] t t' Hi Hp; simpl in *;
    try discriminate; try reflexivity.
  - injection Hi as ->. rewrite Hp. reflexivity.
  - rewrite (IH _ _ _ _ Hi Hp). reflexivity.
Qed.

Lemma started_files_insert_new fs : forall ts i f t t',
  fs !! i = Some f -> ts !! i = Some t ->
  past_io t = false -> past_io t' = true ->
  started_files fs (<[i := t']> ts) ≡ₚ started_files fs ts ++ [f].
Proof.
  induction fs as [|g fs IH]; intros [|x ts] [|i] f t t' Hf Hi Hp Hp';
    simpl in *; try discriminate.
  - injection Hf as ->. injection Hi as ->. rewrite Hp, Hp'.
    apply Permutation_cons_append.
  - specialize (IH _ _ _ _ _ Hf Hi Hp Hp').
    destruct (past_io x); simpl; rewrite IH; reflexivity.
Qed.

Lemma thread_step_started r r' :
  inv_shape r -> thread_step r = Some r' ->
  calls r' = calls r /\
  started_files (all_files r') (futures r')
  = started_files (all_files r) (futures r).
Proof.
  intros S H. unfold thread_step in H.
  repeat case_match; simplify_eq; unfold inv_shape in S; simpl in *;
    repeat match goal with
    | E : at_line r = _ |- _ => rewrite E in S; simpl in S
    end;
    try (destruct S as (-> & _));
    rewrite ?started_files_replicate, ?started_files_nil; auto.
Qed.

Lemma attempt_posted_paths env cfg f :
  sublist (posted_paths (snd (attempt env cfg f)))
          (opened (snd (attempt env cfg f))).
Proof.
  pose proof (attempt_cases env cfg f) as H.
  destruct (read_text Replace env f).
  - destruct H as (o & -> & _). simpl. reflexivity.
  - rewrite H. simpl. apply sublist_nil_l.
Qed.

Lemma worker_step_started env i r r' :
  worker_step env i r = Some r' ->
  all_files r' = all_files r /\
  exists cs,
    calls r' = calls r ++ cs /\
    started_files (all_files r) (futures r')
    ≡ₚ started_files (all_files r) (futures r) ++ opened cs /\
    sublist (posted_paths cs) (opened cs).
Proof.
  intros H. unfold worker_step in H.
  destruct (futures r !! i) as [t|] eqn:Hi; [|discriminate].
  destruct (all_files r !! i) as [fpath|] eqn:Hf;
    [|destruct t; discriminate].
  destruct t as [| |o seen|res].
  - assert (exists t', r' = with_futures (<[i := t']> (futures r)) r /\
                        past_io t' = false)
      as (t' & -> & Ht')
      by (destruct (stop_requested (app r)); simplify_eq; eauto).
    simpl. split; [reflexivity|]. exists [].
    rewrite !app_nil_r, (started_files_insert_same _ _ _ _ _ Hi Ht').
    repeat split; reflexivity.
  - pose proof (attempt_opened env (app_config (app r)) fpath) as Ho.
    pose proof (attempt_posted_paths env (app_config (app r)) fpath) as Hp.
    destruct (attempt env (app_config (app r)) fpath) as [o cs].
    simplify_eq. simpl in *. split; [reflexivity|]. exists cs.
    split; [reflexivity|]. split; [|exact Hp].
    rewrite Ho. eapply started_files_insert_new; eauto.
  - simplify_eq. simpl. norm_store. simpl. split; [congruence|].
    exists []. rewrite !app_nil_r.
    rewrite (started_files_insert_same _ _ _ _ (Done (Some o)) Hi eq_refl).
    split; [congruence|]. split; reflexivity.
  - discriminate.
Qed.

Lemma inv_once_step env ev r r' :
  inv_shape r -> inv_once r -> step env ev r = Some r' -> inv_once r'.
Proof.
  intros S (O1 & O2) H. unfold inv_once.
  destruct ev as [|i| |selection confirm].
  - destruct (thread_step_started r r' S H) as (-> & ->). auto.
  - destruct (worker_step_started _ _ _ _ H)
      as (-> & cs & -> & Hst & Hsub).
    unfold posted_paths in *.
    rewrite opened_app, posted_app, map_app. split.
    + rewrite Hst, O1. reflexivity.
    + apply sublist_app; assumption.
  - destruct (user_step_calls env EvStop r r' ltac:(discriminate)
                ltac:(intros; discriminate) H) as (-> & -> & -> & _). auto.
  - destruct (user_step_calls env (EvStart selection confirm) r r'
                ltac:(discriminate) ltac:(intros; discriminate) H)
      as (-> & -> & -> & _). auto.
Qed.

Lemma reachable_once env r : reachable env r -> inv_once r.
Proof.
  revert r. apply reachable_ind.
  - intros a logs sel r0 (ign & _ & ->)%launch_inv.
    split; simpl; reflexivity.
  - intros ev r r' Hr O H. eapply inv_once_step; try eassumption.
    apply (reachable_Inv _ _ Hr).
Qed.

Lemma finished_run_opened_all env r :
  reachable env r -> at_line r = PcDone ->
  stop_requested (app r) = false ->
  opened (calls r) ≡ₚ all_files r.
Proof.
  intros Hr Hdone Hs.
  destruct (reachable_once _ _ Hr) as (O1 & _). rewrite O1.
  destruct (reachable_Inv _ _ Hr)
    as (S & (_ & _ & P3) & _ & K & _).
  unfold inv_shape in S. rewrite Hdone in S, P3. simpl in S.
  destruct S as (_ & S2).
  rewrite started_files_all; [reflexivity | exact S2 |].
  intros i t Hi.
  pose proof (forallb_done_lookup _ _ _ (P3 eq_refl) Hi) as Hdn.
  destruct t as [| | |[o|]]; try discriminate; [reflexivity|].
  specialize (K _ Hi). congruence.
Qed.

(** In a threaded run over a directory tree the files opened so far
    are, up to the order in which the pool threads ran, the files whose
    call passed its [try] block: no file is opened twice, no path is
    posted twice, a posted file was opened, and a run that ended
    without a stop request opened every enumerated file exactly
    once. *)
Theorem threaded_run_opens_each_file_once env r d :
  reachable env r ->
  fs_dir env (base_dir (app r)) = Some d -> wf_dir d = true ->
  opened (calls r) ≡ₚ started_files (all_files r) (futures r) /\
  NoDup (opened (calls r)) /\
  NoDup (posted_paths (calls r)) /\
  sublist (posted_paths (calls r)) (opened (calls r)) /\
  (at_line r = PcDone -> stop_requested (app r) = false ->
   opened (calls r) ≡ₚ all_files r).
Proof.
  intros Hr Hd Hwf.
  destruct (reachable_once _ _ Hr) as (O1 & O2).
  assert (Hnd : NoDup (all_files r)).
  { destruct (reachable_prefix _ _ Hr) as (rest & Hp).
    unfold list_files in Hp. rewrite Hd in Hp.
    pose proof (enumerate_NoDup (ignored_dirs (app r)) (base_dir (app r))
                  d Hwf) as N.
    rewrite <- Hp in N. apply NoDup_app in N. tauto. }
  assert (Hno : NoDup (opened (calls r))).
  { rewrite O1. eapply sublist_NoDup; eauto using started_files_sublist. }
  split; [exact O1|]. split; [exact Hno|].
  split; [eapply sublist_NoDup; eauto|]. split; [exact O2|].
  intros Hdone Hs. apply (finished_run_opened_all env); assumption.
Qed.

Lemma threaded_run_opens_each_file_once_witness :
  exists r,
    Ex.run_of Ex.env_ok
      (Ex.walk_all ++ Ex.uploads_interleaved ++ Ex.finish_thread) = Some r /\
    reachable Ex.env_ok r /\
    at_line r = PcDone /\
    wf_dir Ex.two_files = true /\
    NoDup (opened (calls r)) /\
    opened (calls r) ≡ₚ all_files r.
Proof.
  assert (E : exists r,
             Ex.run_of Ex.env_ok
               (Ex.walk_all ++ Ex.uploads_interleaved ++ Ex.finish_thread)
             = Some r /\
             at_line r = PcDone /\ stop_requested (app r) = false)
    by (vm_compute; eexists; repeat split).
  destruct E as (r & E & Hd & Hs). exists r. split; [exact E|].
  pose proof (run_of_reachable _ _ _ E) as Hr. split; [exact Hr|].
  split; [exact Hd|]. split; [reflexivity|].
  destruct (threaded_run_opens_each_file_once Ex.env_ok r Ex.two_files
              Hr eq_refl eq_refl) as (_ & H2 & _ & _ & H5).
  split; [exact H2 | exact (H5 Hd Hs)].
Defined.


(** ** The GUI from its start to the end of a run *)

Lemma exec_keeps_folder env evs : forall r r',
  exec env evs r = Some r' ->
  base_dir (app r') = base_dir (app r) /\
  ignored_dirs (app r') = ignored_dirs (app r).
Proof.
  induction evs as [|ev evs IH]; intros r r' H; simpl in H.
  - injection H as <-. auto.
  - destruct (step env ev r) as [r1|] eqn:Hs; [|discriminate].
    destruct (step_keeps_folder _ _ _ _ Hs) as (<- & <- & _).
    apply IH, H.
Qed.

Lemma launch_Some env a logs selection ign :
  is_valid (app_config a) = true -> base_dir a <> [] ->
  embedding_in_progress a = false ->
  selected_names (subdirs a) selection = Some ign ->
  exists r0, launch env a logs selection true = Some r0 /\
             ignored_dirs (app r0) = ign /\ base_dir (app r0) = base_dir a.
Proof.
  intros Hv Hb Hp Hs. unfold launch, start_embedding.
  rewrite Hv, Hp, Hs. destruct (base_dir a); [congruence|]. simpl. eauto.
Qed.

(** The GUI end to end: started by [main] without --cli, with a valid
    configuration, after a folder was chosen and entries of the list
    selected, "Start Embedding" (confirmed) starts a run that ignores
    the direct subdirectories at the selected places; and whenever that
    run ends without a stop request, under any schedule, its file list
    is the enumeration of the chosen folder without the subtrees of
    those names, each of these files was opened once, the total is the
    length of the list and the dialog is "Embedding completed". *)
Theorem gui_session_embeds_the_chosen_folder (py_int : str -> option Z)
  env args inputs a chosen files subs logs selection :
  main py_int env args inputs = GuiMode a ->
  is_valid (app_config a) = true ->
  coherent env chosen (MkDir files subs) -> chosen <> [] ->
  Forall (fun i => (i < length subs)%nat) selection ->
  exists ign r0,
    launch env (fst (select_folder env a chosen)) logs selection true
    = Some r0 /\
    Forall2 (fun i n => List.map fst subs !! i = Some n) selection ign /\
    forall evs r,
      exec env evs r0 = Some r -> at_line r = PcDone ->
      stop_requested (app r) = false ->
      all_files r = enumerate ign chosen (MkDir files subs) /\
      opened (calls r) ≡ₚ enumerate ign chosen (MkDir files subs) /\
      total_files r = Some (length (all_files r)) /\
      last (shown r) = Some InfoDone.
Proof.
  intros Hm Hv Hc Hn Hsel.
  assert (Ha : a = run_gui_mode args).
  { unfold main in Hm. destruct (arg_cli args); congruence. }
  assert (Hf : fst (select_folder env a chosen)
               = set_folder chosen (List.map fst subs) a).
  { unfold select_folder. rewrite Hv. simpl.
    assert (Hd : isdir env chosen = true)
      by (unfold isdir; destruct Hc as (-> & _); reflexivity).
    destruct chosen as [|x c]; [congruence|]. simpl truthy. cbv iota.
    rewrite Hd. simpl. rewrite (list_subdirs_coherent _ _ _ Hc).
    reflexivity. }
  rewrite Hf.
  assert (Hl : Forall (fun i => (i < length (List.map fst subs))%nat)
                      selection)
    by (rewrite length_map; exact Hsel).
  apply selected_names_Some in Hl as (ign & Hign).
  destruct (launch_Some env (set_folder chosen (List.map fst subs) a)
              logs selection ign) as (r0 & Hr0 & Hi0 & Hb0);
    [exact Hv | exact Hn | rewrite Ha; reflexivity | exact Hign |].
  exists ign, r0. split; [exact Hr0|].
  split; [apply selected_names_spec, Hign|].
  intros evs r He Hd Hs.
  assert (Hr : reachable env r).
  { exists (set_folder chosen (List.map fst subs) a), logs, selection, r0, evs.
    auto. }
  destruct (reachable_Inv _ _ Hr)
    as (S & _ & _ & _ & _ & R & _ & E).
  destruct (exec_keeps_folder _ _ _ _ He) as (Hb & Hi).
  specialize (E Hs). rewrite Hd in E. simpl in E.
  rewrite Hb, Hi, Hb0, Hi0 in E. simpl in E.
  unfold list_files in E. destruct Hc as (Hfs & _). rewrite Hfs in E.
  unfold inv_shape in S. rewrite Hd in S. simpl in S.
  split; [exact E|].
  split; [rewrite <- E; apply (finished_run_opened_all env); assumption|].
  split; [apply S|].
  rewrite (R Hd), Hs. reflexivity.
Qed.

Lemma gui_session_embeds_the_chosen_folder_witness :
  exists r0 r,
    launch Ex2.env
      (fst (select_folder Ex2.env (run_gui_mode Ex2.gui_args) (lit "/data")))
      [] [0%nat] true = Some r0 /\
    exec Ex2.env Ex2.whole_run r0 = Some r /\
    at_line r = PcDone /\
    all_files r = [lit "/data/a.txt"; lit "/data/sub/c.txt"] /\
    last (shown r) = Some InfoDone.
Proof.
  assert (E : exists r0 r,
             launch Ex2.env
               (fst (select_folder Ex2.env (run_gui_mode Ex2.gui_args)
                       (lit "/data")))
               [] [0%nat] true = Some r0 /\
             exec Ex2.env Ex2.whole_run r0 = Some r /\
             at_line r = PcDone /\ stop_requested (app r) = false)
    by (vm_compute; do 2 eexists; repeat split).
  destruct E as (r0 & r & El & Ee & Hd & Hs).
  exists r0, r. split; [exact El|]. split; [exact Ee|]. split; [exact Hd|].
  assert (Hc : coherent Ex2.env (lit "/data") Ex.tree).
  { split; [reflexivity|]. split; repeat constructor. }
  destruct (gui_session_embeds_the_chosen_folder Ex2.digits_int Ex2.env
              Ex2.gui_args [] (run_gui_mode Ex2.gui_args) (lit "/data")
              _ _ [] [0%nat] eq_refl eq_refl Hc)
    as (ign & r1 & Hl1 & Hsel & Hfin).
  - discriminate.
  - repeat constructor.
  - rewrite El in Hl1. injection Hl1 as <-.
    destruct (Hfin _ _ Ee Hd Hs) as (H1 & _ & _ & H3).
    split; [|exact H3]. rewrite H1.
    inversion Hsel as [|? n ? ? Hn Hrest]; subst.
    inversion Hrest; subst. simpl in Hn. injection Hn as <-.
    vm_compute. reflexivity.
Defined.

